(** * Image compression tool: worker pipeline and dispatch manager

    A shallow embedding of the image worker (orientation decoder,
    dimension planning, canvas orientation, [processImage]) and of the
    coordinating [ImageCompressionTool] class (worker pool, processing
    queue, result handling), with the properties of the design document
    stated and settled against the code.

    Conventions.
    - An [ArrayBuffer] is a [list byte]; a [DataView] over it reads
      unsigned integers and throws a [RangeError] when the read does not
      fit in the buffer.
    - A JavaScript [number] that is an offset, a marker or a byte count is
      an integer far below 2^53 and is modelled as [Z]; pixel dimensions
      and the scale ratio go through division and [Math.round], and are
      modelled as IEEE 754 binary64 values ([float]).
    - [try]/[catch] and promise rejection are modelled by the
      [completion] monad: a computation ends normally with a value or
      abruptly with a thrown value. *)

From Stdlib Require Import ZArith Lia Floats.
From Stdlib.Strings Require Byte.
From stdpp Require Import base option list strings gmap.
From Equations Require Import Equations.

Local Open Scope string_scope.
Local Open Scope list_scope.
Local Open Scope Z_scope.

(** ** Thrown values and abrupt completion *)

(** What a [throw] carries: an object that passes [instanceof Error]
    (with its [name] and [message]) or any other value. *)
Inductive thrown : Type :=
  | ErrorObject (name message : string)
  | NonError.

Inductive completion (A : Type) : Type :=
  | Normal (a : A)
  | Throw (e : thrown).
Arguments Normal {A} a.
Arguments Throw {A} e.

#[global] Instance completion_ret : MRet completion := fun _ a => Normal a.
#[global] Instance completion_bind : MBind completion := fun _ _ f c =>
  match c with
  | Normal a => f a
  | Throw e => Throw e
  end.

Definition byte := Byte.byte.

Module Worker.

(** ** DataView *)

Definition byteLength (view : list byte) : Z := Z.of_nat (length view).

Definition RangeError : thrown :=
  ErrorObject "RangeError" "Offset is outside the bounds of the DataView".

Definition byteValue (b : byte) : Z := Z.of_N (Byte.to_N b).

(** Big-endian value of a byte sequence. *)
Definition bigEndian (bs : list byte) : Z :=
  fold_left (fun acc b => acc * 256 + byteValue b) bs 0.

(** [view.getUintN(byteOffset, littleEndian)] for an element of [size]
    bytes: a [RangeError] unless [0 <= byteOffset] and
    [byteOffset + size <= byteLength]. *)
Definition getUint (size : nat) (view : list byte) (byteOffset : Z)
    (littleEndian : bool) : completion Z :=
  if (byteOffset <? 0) || (byteLength view <? byteOffset + Z.of_nat size)
  then Throw RangeError
  else
    let bs := take size (drop (Z.to_nat byteOffset) view) in
    Normal (bigEndian (if littleEndian then rev bs else bs)).

Definition getUint16 := getUint 2.
Definition getUint32 := getUint 4.

(** ** getImageOrientation *)

(** The [for] loop over the directory entries: [Some v] when the loop
    executes [return v], [None] when it runs to its end. [remaining] is
    [tagCount - i]. *)
Fixpoint findOrientationTag (view : list byte) (tiffOffset ifdOffset : Z)
    (littleEndian : bool) (remaining : nat) (i : Z) : completion (option Z) :=
  match remaining with
  | O => Normal None
  | S remaining' =>
      let tagOffset := tiffOffset + ifdOffset + 2 + i * 12 in
      tag ← getUint16 view tagOffset littleEndian;
      if tag =? 0x0112 then
        v ← getUint16 view (tagOffset + 8) littleEndian;
        Normal (Some v)
      else findOrientationTag view tiffOffset ifdOffset littleEndian remaining' (i + 1)
  end.

(** The branch taken when the marker is [0xFFE1]; [offset] already points
    past the marker. The function returns from inside this branch or
    leaves the loop through [break], after which it returns 1. *)
Definition readExifOrientation (view : list byte) (offset : Z) : completion Z :=
  let offset := offset + 2 in
  signature ← getUint32 view offset false;
  if signature =? 0x45786966 then
    let tiffOffset := offset + 6 in
    byteOrder ← getUint16 view tiffOffset false;
    let littleEndian := byteOrder =? 0x4949 in
    ifdOffset ← getUint32 view (tiffOffset + 4) littleEndian;
    tagCount ← getUint16 view (tiffOffset + ifdOffset) littleEndian;
    found ← findOrientationTag view tiffOffset ifdOffset littleEndian
              (Z.to_nat tagCount) 0;
    match found with
    | Some v => Normal v
    | None => Normal 1
    end
  else Normal 1.

(** How one iteration of the [while] loop ends. *)
Inductive loopControl : Type :=
  | Continue (offset : Z)
  | Return (value : Z).

(** One iteration of the loop body, entered with [offset < length]. *)
Definition scanBody (view : list byte) (offset : Z) : completion loopControl :=
  marker ← getUint16 view offset false;
  let offset := offset + 2 in
  if marker =? 0xFFE1 then
    v ← readExifOrientation view offset;
    Normal (Return v)
  else if negb (Z.land marker 0xFF00 =? 0xFF00) then
    Normal (Return 1)
  else
    segmentLength ← getUint16 view offset false;
    Normal (Continue (offset + segmentLength)).

(** Every value a [DataView] read yields is an unsigned integer of the
    element's width. *)
Lemma byteValue_range (b : byte) : 0 <= byteValue b < 256.
Proof.
  unfold byteValue. pose proof (Byte.to_N_bounded b) as Hb. lia.
Qed.

Lemma fold_bigEndian_range (bs : list byte) (acc : Z) :
  0 <= acc ->
  0 <= fold_left (fun acc b => acc * 256 + byteValue b) bs acc
    < (acc + 1) * 256 ^ Z.of_nat (length bs).
Proof.
  revert acc. induction bs as [|b bs IH]; intros acc Hacc; simpl length.
  - simpl. lia.
  - cbn [fold_left]. pose proof (byteValue_range b) as Hb.
    specialize (IH (acc * 256 + byteValue b) ltac:(lia)).
    rewrite Nat2Z.inj_succ, Z.pow_succ_r by lia.
    assert (0 < 256 ^ Z.of_nat (length bs)) by (apply Z.pow_pos_nonneg; lia).
    split; [lia|]. nia.
Qed.

Lemma bigEndian_range (bs : list byte) :
  0 <= bigEndian bs < 256 ^ Z.of_nat (length bs).
Proof.
  pose proof (fold_bigEndian_range bs 0 ltac:(lia)) as H.
  unfold bigEndian. lia.
Qed.

Lemma getUint_throws (size : nat) view byteOffset littleEndian e :
  getUint size view byteOffset littleEndian = Throw e -> e = RangeError.
Proof.
  unfold getUint. case_match; congruence.
Qed.

Lemma getUint_range (size : nat) view byteOffset littleEndian v :
  getUint size view byteOffset littleEndian = Normal v ->
  0 <= v < 256 ^ Z.of_nat size.
Proof.
  unfold getUint. case_match eqn:Hb; [congruence|].
  intros [= <-].
  apply orb_false_iff in Hb as [H0 Hlen].
  apply Z.ltb_ge in H0, Hlen. unfold byteLength in Hlen.
  set (bs := take size (drop (Z.to_nat byteOffset) view)).
  assert (Hsz : length bs = size).
  { unfold bs. rewrite length_take, length_drop. lia. }
  pose proof (bigEndian_range (if littleEndian then rev bs else bs)) as Hr.
  destruct littleEndian; rewrite ?length_rev, Hsz in Hr; exact Hr.
Qed.

Lemma getUint16_range view byteOffset littleEndian v :
  getUint16 view byteOffset littleEndian = Normal v -> 0 <= v <= 65535.
Proof.
  intros H. apply getUint_range in H. change (256 ^ Z.of_nat 2) with 65536 in H. lia.
Qed.

(** An iteration that goes round the loop again has moved the offset
    forward by the two marker bytes plus the segment length. *)
Lemma scanBody_progress view offset offset' :
  scanBody view offset = Normal (Continue offset') -> offset + 2 <= offset'.
Proof.
  unfold scanBody.
  destruct (getUint16 view offset false) as [marker|e]; cbn; [|congruence].
  destruct (marker =? 65505).
  { destruct (readExifOrientation view (offset + 2)); cbn; congruence. }
  destruct (negb _); [congruence|].
  destruct (getUint16 view (offset + 2) false) as [len|e] eqn:Hlen; cbn; [|congruence].
  intros [= <-]. apply getUint16_range in Hlen. lia.
Qed.

(** Pairs a value with the equation that names it, so that a branch of
    a definition can use the equation. *)
Definition inspect {A : Type} (x : A) : { y : A | x = y } := exist _ x eq_refl.

(** The [while (offset < length)] loop followed by the final [return 1].
    The distance from [offset] to the end of the buffer decreases on
    every iteration. *)
Equations? scan (view : list byte) (offset : Z) : completion Z
    by wf (Z.to_nat (byteLength view - offset)) lt :=
  scan view offset with inspect (offset <? byteLength view) => {
    | exist _ false _ := Normal 1
    | exist _ true Hlt with inspect (scanBody view offset) => {
        | exist _ (Throw e) _ := Throw e
        | exist _ (Normal (Return v)) _ := Normal v
        | exist _ (Normal (Continue offset')) Hbody := scan view offset' } }.
Proof.
  apply scanBody_progress in Hbody. apply Z.ltb_lt in Hlt. lia.
Qed.

Definition getImageOrientation (buffer : list byte) : completion Z :=
  let view := buffer in
  soi ← getUint16 view 0 false;
  if negb (soi =? 0xFFD8) then Normal 1
  else
    let length := byteLength view in
    scan view 2.

(** The same loop run for at most [fuel] iterations; [None] when the
    iterations are used up before the loop is left. *)
Fixpoint scanFuel (fuel : nat) (view : list byte) (offset : Z)
    : option (completion Z) :=
  if offset <? byteLength view then
    match fuel with
    | O => None
    | S fuel' =>
        match scanBody view offset with
        | Throw e => Some (Throw e)
        | Normal (Return v) => Some (Normal v)
        | Normal (Continue offset') => scanFuel fuel' view offset'
        end
    end
  else Some (Normal 1).

(** ** Numbers: comparison, [Math.min], [Math.round] *)

(** [Math.min(a, b)]: NaN when either argument is, and -0 below +0. *)
Definition Math_min (a b : float) : float :=
  if is_nan a || is_nan b then nan
  else if (a <? b)%float then a
  else if (b <? a)%float then b
  else if is_zero a && get_sign a then a
  else b.

(** The number an integer below 2^63 in magnitude denotes. *)
Definition numberOfZ (n : Z) : float :=
  if n <? 0 then (- of_uint63 (Uint63.of_Z (- n)))%float
  else of_uint63 (Uint63.of_Z n).

(** [floor (x + 1/2)] for [x = ±m * 2^e] with [e < 0], computed exactly
    on the mantissa. *)
Definition roundedInteger (s : bool) (m : positive) (e : Z) : Z :=
  let mantissa := cond_Zopp s (Z.pos m) in
  (2 * mantissa + 2 ^ (- e)) / 2 ^ (1 - e).

(** [Math.round(x)]: the integer nearest to [x], a tie going towards
    plus infinity; NaN, the infinities and the zeros are returned as they
    are. A finite non-zero [x] is [±m * 2^e]: with [e >= 0] it is an
    integer already, otherwise the result is [floor (x + 1/2)], and a
    zero result keeps the sign of [x]. *)
Definition Math_round (x : float) : float :=
  match Prim2SF x with
  | S754_finite s m e =>
      if 0 <=? e then x
      else
        let n := roundedInteger s m e in
        if n =? 0 then (if s then neg_zero else zero)
        else numberOfZ n
  | _ => x
  end.

(** ** Planned dimensions (the scaling step of [processImage]) *)

(** [if (width > maxWidth || height > maxHeight) { ratio = ...;
    width = Math.round(width * ratio); height = Math.round(height * ratio) }]:
    the values of [width] and [height] after the statement. *)
Definition scaledDimensions (width height maxWidth maxHeight : float)
    : float * float :=
  if (maxWidth <? width)%float || (maxHeight <? height)%float then
    let ratio := Math_min (maxWidth / width)%float (maxHeight / height)%float in
    (Math_round (width * ratio)%float, Math_round (height * ratio)%float)
  else (width, height).

(** ** Canvas and orientation transform *)

(** The arguments of one [ctx.transform(a, b, c, d, e, f)] call. *)
Definition matrix : Type := (float * float * float * float * float * float)%type.

(** An [OffscreenCanvas] with the state of its 2D context that matters
    here: the [transform] calls made since the context was last reset
    (most recent first). Assigning [width] or [height] resets the
    context. *)
Record Canvas : Type := {
  width : float;
  height : float;
  transforms : list matrix
}.

Definition set_width (canvas : Canvas) (w : float) : Canvas :=
  {| width := w; height := height canvas; transforms := [] |}.

Definition set_height (canvas : Canvas) (h : float) : Canvas :=
  {| width := width canvas; height := h; transforms := [] |}.

Definition nullContext (method : string) : thrown :=
  ErrorObject "TypeError"
    ("Cannot read properties of null (reading '" +:+ method +:+ "')").

(** [ctx.transform(...)]; [hasContext] is false when
    [canvas.getContext('2d')] returned null, and the call then throws. *)
Definition transform (hasContext : bool) (canvas : Canvas) (m : matrix)
    : completion Canvas :=
  if hasContext then
    Normal {| width := width canvas; height := height canvas;
              transforms := m :: transforms canvas |}
  else Throw (nullContext "transform").

Definition applyOrientation (canvas : Canvas) (hasContext : bool)
    (orientation : Z) : completion Canvas :=
  let width := width canvas in
  let height := height canvas in
  match orientation with
  | 2 => transform hasContext canvas (-1, 0, 0, 1, width, 0)%float
  | 3 => transform hasContext canvas (-1, 0, 0, -1, width, height)%float
  | 4 => transform hasContext canvas (1, 0, 0, -1, 0, height)%float
  | 5 =>
      let canvas := set_width canvas height in
      let canvas := set_height canvas width in
      transform hasContext canvas (0, 1, 1, 0, 0, 0)%float
  | 6 =>
      let canvas := set_width canvas height in
      let canvas := set_height canvas width in
      transform hasContext canvas (0, 1, -1, 0, height, 0)%float
  | 7 =>
      let canvas := set_width canvas height in
      let canvas := set_height canvas width in
      transform hasContext canvas (0, -1, -1, 0, height, width)%float
  | 8 =>
      let canvas := set_width canvas height in
      let canvas := set_height canvas width in
      transform hasContext canvas (0, -1, 1, 0, 0, width)%float
  | _ => Normal canvas
  end.

(** ** processImage *)

Record ImageProcessingOptions : Type := {
  quality : float;
  maxWidth : float;
  maxHeight : float;
  format : string
}.

Record ProcessImageMessage : Type := {
  msg_id : string;
  imageData : list byte;
  msg_filename : string;
  options : ImageProcessingOptions
}.

Record Dimensions : Type := { dim_width : float; dim_height : float }.

Record ProcessImageResult : Type := {
  id : string;
  success : bool;
  originalSize : Z;
  compressedSize : Z;
  originalDimensions : Dimensions;
  compressedDimensions : Dimensions;
  compressedData : option (list byte);
  filename : string;
  error : option string
}.

Record ImageBitmap : Type := { bitmap_width : float; bitmap_height : float }.

(** What the browser does for the worker: each operation ends normally
    or throws (a rejected promise, for the asynchronous ones). *)
Record Platform : Type := {
  createImageBitmap : list byte -> completion ImageBitmap;
  (** [new OffscreenCanvas(width, height)]: throws or yields a canvas of
      that size. *)
  newOffscreenCanvas : float -> float -> completion unit;
  (** whether [canvas.getContext('2d')] yields a context (not null) *)
  getContext2d : bool;
  (** [ctx.drawImage(bitmap, 0, 0, width, height)] on the canvas *)
  drawImage : ImageBitmap -> Canvas -> float -> float -> completion unit;
  (** [canvas.convertToBlob({type, quality})] followed by
      [arrayBuffer()] *)
  convertToBlob : Canvas -> string -> option float -> completion (list byte)
}.

(** The dimensions the canvas is created with. *)
Definition displayDimensions (orientation : Z) (width height : float)
    : float * float :=
  let needsRotation := orientation >? 4 in
  let displayWidth := if needsRotation then height else width in
  let displayHeight := if needsRotation then width else height in
  (displayWidth, displayHeight).

(** The canvas as it is when the image is drawn and encoded: created
    with the display dimensions, then passed through [applyOrientation]. *)
Definition orientedCanvas (hasContext : bool) (orientation : Z)
    (width height : float) : completion Canvas :=
  let '(displayWidth, displayHeight) :=
    displayDimensions orientation width height in
  applyOrientation
    {| width := displayWidth; height := displayHeight; transforms := [] |}
    hasContext orientation.

Definition mimeType (format : string) : string :=
  if String.eqb format "png" then "image/png"
  else if String.eqb format "webp" then "image/webp"
  else "image/jpeg".

(** The body of the [try] block. *)
Definition processImageBody (P : Platform) (data : ProcessImageMessage)
    : completion ProcessImageResult :=
  let id := msg_id data in
  let imageData := imageData data in
  let filename := msg_filename data in
  let options := options data in
  bitmap ← createImageBitmap P imageData;
  orientation ← getImageOrientation imageData;
  let originalWidth := bitmap_width bitmap in
  let originalHeight := bitmap_height bitmap in
  let '(width, height) :=
    scaledDimensions originalWidth originalHeight
      (maxWidth options) (maxHeight options) in
  let '(displayWidth, displayHeight) :=
    displayDimensions orientation width height in
  _ ← newOffscreenCanvas P displayWidth displayHeight;
  canvas ← orientedCanvas (getContext2d P) orientation width height;
  _ ← (if getContext2d P then drawImage P bitmap canvas width height
        else Throw (nullContext "drawImage"));
  compressedData ←
    convertToBlob P canvas (mimeType (format options))
      (if String.eqb (format options) "png" then None
       else Some (quality options));
  Normal {|
    id := id;
    success := true;
    originalSize := byteLength imageData;
    compressedSize := byteLength compressedData;
    originalDimensions :=
      {| dim_width := originalWidth; dim_height := originalHeight |};
    compressedDimensions :=
      {| dim_width := displayWidth; dim_height := displayHeight |};
    compressedData := Some compressedData;
    filename := filename;
    error := None
  |}.

(** [error instanceof Error ? error.message : 'Unknown error'] *)
Definition errorMessage (e : thrown) : string :=
  match e with
  | ErrorObject _ message => message
  | NonError => "Unknown error"
  end.

(** The [catch] block. *)
Definition failureResult (data : ProcessImageMessage) (e : thrown)
    : ProcessImageResult :=
  {|
    id := msg_id data;
    success := false;
    originalSize := 0;
    compressedSize := 0;
    originalDimensions := {| dim_width := 0; dim_height := 0 |};
    compressedDimensions := {| dim_width := 0; dim_height := 0 |};
    compressedData := None;
    filename := msg_filename data;
    error := Some (errorMessage e)
  |}.

Definition processImage (P : Platform) (data : ProcessImageMessage)
    : ProcessImageResult :=
  match processImageBody P data with
  | Normal result => result
  | Throw e => failureResult data e
  end.

(** ** Concrete inputs: two platforms, a job, a buffer with metadata *)

(** A browser that decodes every buffer as a bitmap of the given size
    and encodes every canvas as one byte. *)
Definition decodingPlatform (w h : float) : Platform := {|
  createImageBitmap := fun _ => Normal {| bitmap_width := w; bitmap_height := h |};
  newOffscreenCanvas := fun _ _ => Normal tt;
  getContext2d := true;
  drawImage := fun _ _ _ _ => Normal tt;
  convertToBlob := fun _ _ _ => Normal [Byte.x2a]
|}.

(** A browser that cannot decode the bytes it is given. *)
Definition undecodablePlatform : Platform := {|
  createImageBitmap := fun _ =>
    Throw (ErrorObject "InvalidStateError" "The source image could not be decoded.");
  newOffscreenCanvas := fun _ _ => Normal tt;
  getContext2d := true;
  drawImage := fun _ _ _ _ => Normal tt;
  convertToBlob := fun _ _ _ => Normal []
|}.

Definition jpegOptions : ImageProcessingOptions :=
  {| quality := 0.5; maxWidth := 1920; maxHeight := 1080; format := "jpeg" |}.

Definition message (id : string) (bytes : list byte) : ProcessImageMessage :=
  {| msg_id := id; imageData := bytes; msg_filename := id +:+ ".jpg";
     options := jpegOptions |}.

(** A start-of-image marker, an APP1 segment with the Exif signature, a
    big-endian TIFF header and one directory entry: the orientation tag
    with the given two value bytes. *)
Definition exifBuffer (hi lo : byte) : list byte :=
  [Byte.xff; Byte.xd8; Byte.xff; Byte.xe1; Byte.x00; Byte.x20;
   Byte.x45; Byte.x78; Byte.x69; Byte.x66; Byte.x00; Byte.x00;
   Byte.x4d; Byte.x4d; Byte.x00; Byte.x2a; Byte.x00; Byte.x00; Byte.x00; Byte.x08;
   Byte.x00; Byte.x01;
   Byte.x01; Byte.x12; Byte.x00; Byte.x03; Byte.x00; Byte.x00; Byte.x00; Byte.x01;
   hi; lo; Byte.x00; Byte.x00].

(** ** Properties of the orientation decoder *)

(** *** The loop equation and what the reads can produce *)

Lemma scan_eq view offset :
  scan view offset =
  if offset <? byteLength view then
    match scanBody view offset with
    | Throw e => Throw e
    | Normal (Return v) => Normal v
    | Normal (Continue offset') => scan view offset'
    end
  else Normal 1.
Proof.
  funelim (scan view offset);
    repeat match goal with
           | H : (_ <? _) = _ |- _ => rewrite H
           | H : scanBody _ _ = _ |- _ => rewrite H
           end; reflexivity.
Qed.

(** A property of everything the loop body can end with holds of the
    loop. *)
Lemma scan_cases (Q : completion Z -> Prop) view :
  Q (Normal 1) ->
  (forall offset e, scanBody view offset = Throw e -> Q (Throw e)) ->
  (forall offset v, scanBody view offset = Normal (Return v) -> Q (Normal v)) ->
  forall offset, Q (scan view offset).
Proof.
  intros Hend Hthrow Hret offset.
  funelim (scan view offset); eauto.
  match goal with IH : forall Q : _ -> Prop, _ |- _ => apply IH; assumption end.
Qed.

(** The outcome of a decoder step: only the [DataView]'s [RangeError] is
    ever thrown, and a value is an unsigned 16-bit integer. *)
Definition decoderOutcome (c : completion Z) : Prop :=
  match c with
  | Normal v => 0 <= v <= 65535
  | Throw e => e = RangeError
  end.

Definition tagOutcome (c : completion (option Z)) : Prop :=
  match c with
  | Normal (Some v) => 0 <= v <= 65535
  | Normal None => True
  | Throw e => e = RangeError
  end.

Definition bodyOutcome (c : completion loopControl) : Prop :=
  match c with
  | Normal (Return v) => 0 <= v <= 65535
  | Normal (Continue _) => True
  | Throw e => e = RangeError
  end.

Lemma bind_cases {A B : Type} (P : completion B -> Prop)
    (c : completion A) (f : A -> completion B) :
  (forall e, c = Throw e -> P (Throw e)) ->
  (forall a, c = Normal a -> P (f a)) ->
  P (c ≫= f).
Proof.
  intros Hthrow Hnormal. destruct c as [a|e]; cbn; auto.
Qed.

(** Splits the goal on the first read of a [DataView] sequence: the
    throwing case is closed, the other continues with the value read. *)
#[local] Ltac read_step v H :=
  apply bind_cases;
  [ let e := fresh "e" in
    intros e H; apply getUint_throws in H; subst e; reflexivity
  | intros v H ].

Lemma findOrientationTag_outcome view tiffOffset ifdOffset littleEndian remaining i :
  tagOutcome (findOrientationTag view tiffOffset ifdOffset littleEndian remaining i).
Proof.
  revert i. induction remaining as [|n IH]; intros i; cbn [findOrientationTag];
    [exact I|].
  read_step tag Htag.
  destruct (tag =? 274); [|apply IH].
  read_step v Hv. apply getUint16_range in Hv. exact Hv.
Qed.

Lemma readExifOrientation_outcome view offset :
  decoderOutcome (readExifOrientation view offset).
Proof.
  unfold readExifOrientation.
  read_step exifSig Hsig.
  destruct (exifSig =? 1165519206); [|cbn; lia].
  read_step byteOrder Horder.
  read_step ifdOffset Hifd.
  read_step tagCount Hcount.
  apply bind_cases.
  - intros e He.
    match type of He with
    | ?c = _ => assert (Hc : tagOutcome c) by apply findOrientationTag_outcome
    end.
    rewrite He in Hc. exact Hc.
  - intros found Hfound.
    match type of Hfound with
    | ?c = _ => assert (Hc : tagOutcome c) by apply findOrientationTag_outcome
    end.
    rewrite Hfound in Hc. destruct found; cbn in *; lia.
Qed.

Lemma scanBody_outcome view offset : bodyOutcome (scanBody view offset).
Proof.
  unfold scanBody.
  read_step marker Hmarker.
  destruct (marker =? 65505).
  { pose proof (readExifOrientation_outcome view (offset + 2)) as H.
    apply bind_cases; intros ? Heq; rewrite Heq in H; exact H. }
  destruct (negb _); [cbn; lia|].
  read_step segmentLength Hlen. exact I.
Qed.

Lemma scan_outcome view offset : decoderOutcome (scan view offset).
Proof.
  apply scan_cases; cbn.
  - lia.
  - intros o e H. pose proof (scanBody_outcome view o) as Hb. now rewrite H in Hb.
  - intros o v H. pose proof (scanBody_outcome view o) as Hb. now rewrite H in Hb.
Qed.

Lemma getImageOrientation_outcome buffer :
  decoderOutcome (getImageOrientation buffer).
Proof.
  unfold getImageOrientation.
  read_step soi Hsoi.
  destruct (negb _); [cbn; lia|]. apply scan_outcome.
Qed.

(** Enough iterations reach the end of the loop: the offset advances by
    at least two bytes per iteration. *)
Lemma scanFuel_enough view fuel offset :
  byteLength view - offset <= 2 * Z.of_nat fuel ->
  scanFuel fuel view offset = Some (scan view offset).
Proof.
  revert offset. induction fuel as [|fuel IH]; intros offset Hfuel;
    rewrite scan_eq; cbn [scanFuel];
    destruct (offset <? byteLength view) eqn:Hlt; try reflexivity.
  - apply Z.ltb_lt in Hlt. lia.
  - destruct (scanBody view offset) as [[offset'|v]|e] eqn:Hbody; try reflexivity.
    apply IH. apply scanBody_progress in Hbody. lia.
Qed.

Lemma getImageOrientation_not_soi buffer soi :
  getUint16 buffer 0 false = Normal soi -> soi <> 0xFFD8 ->
  getImageOrientation buffer = Normal 1.
Proof.
  intros Hread Hsoi. unfold getImageOrientation. rewrite Hread. cbn.
  destruct (soi =? 65496) eqn:E; [apply Z.eqb_eq in E; contradiction|reflexivity].
Qed.

(** *** The decoder on concrete buffers *)

Example getImageOrientation_exif_6 :
  getImageOrientation (exifBuffer Byte.x00 Byte.x06) = Normal 6.
Proof. reflexivity. Qed.

(** Each of the codes 1 to 8 stored in the entry is returned as it is. *)
Example getImageOrientation_exif_codes :
  map (fun lo => getImageOrientation (exifBuffer Byte.x00 lo))
      [Byte.x01; Byte.x02; Byte.x03; Byte.x04;
       Byte.x05; Byte.x06; Byte.x07; Byte.x08]
  = map Normal [1; 2; 3; 4; 5; 6; 7; 8].
Proof. reflexivity. Qed.

(** A minimal file, start-of-image followed by end-of-image: the walk
    takes the end marker for a segment and reads its length past the
    end of the buffer. *)
Example getImageOrientation_soi_eoi :
  getImageOrientation [Byte.xff; Byte.xd8; Byte.xff; Byte.xd9] = Throw RangeError.
Proof. reflexivity. Qed.

Example getImageOrientation_png_signature :
  getImageOrientation [Byte.x89; Byte.x50; Byte.x4e; Byte.x47] = Normal 1.
Proof. reflexivity. Qed.

Example getImageOrientation_soi_only :
  getImageOrientation [Byte.xff; Byte.xd8] = Normal 1.
Proof. reflexivity. Qed.

(** C1, counterexample: on the empty buffer the first read,
    [view.getUint16(0)], is out of range and the decoder throws instead
    of returning the default. *)
Lemma getImageOrientation_empty_throws :
  getImageOrientation [] = Throw RangeError /\
  getImageOrientation [] <> Normal 1.
Proof. split; [reflexivity | discriminate]. Qed.

(** C1, as amended: the decoder has no bounds checks of its own. It
    always ends, either with a value or with the [RangeError] of an
    out-of-range [DataView] read, and no other fault; an out-of-range
    read is not turned into the default but propagates: every buffer
    shorter than two bytes throws, and a read that throws inside an
    iteration of the walk throws out of the whole loop. It returns
    normally, with 1, when the first two bytes are readable and are not
    the start-of-image marker. *)
Theorem getImageOrientation_faults_propagate (buffer : list byte) :
  (getImageOrientation buffer = Throw RangeError \/
   exists v, getImageOrientation buffer = Normal v) /\
  (byteLength buffer < 2 -> getImageOrientation buffer = Throw RangeError) /\
  (forall offset e,
     offset < byteLength buffer -> scanBody buffer offset = Throw e ->
     scan buffer offset = Throw e) /\
  (forall soi,
     getUint16 buffer 0 false = Normal soi -> soi <> 0xFFD8 ->
     getImageOrientation buffer = Normal 1).
Proof.
  split; [|split; [|split]].
  - pose proof (getImageOrientation_outcome buffer) as H.
    destruct (getImageOrientation buffer) as [v|e]; cbn in H.
    + right. now exists v.
    + left. now subst.
  - intros Hshort. unfold getImageOrientation, getUint16, getUint.
    replace (byteLength buffer <? 0 + Z.of_nat 2) with true
      by (symmetry; apply Z.ltb_lt; lia).
    reflexivity.
  - intros offset e Hlt Hbody. rewrite scan_eq, Hbody.
    apply Z.ltb_lt in Hlt. now rewrite Hlt.
  - apply getImageOrientation_not_soi.
Qed.

Lemma getImageOrientation_faults_propagate_witness :
  getImageOrientation [Byte.xff] = Throw RangeError.
Proof.
  apply (proj1 (proj2 (getImageOrientation_faults_propagate [Byte.xff]))).
  reflexivity.
Defined.

(** C3, counterexample: an orientation entry holding 9 is returned as
    it is, outside 1..8. *)
Lemma getImageOrientation_returns_9 :
  getImageOrientation (exifBuffer Byte.x00 Byte.x09) = Normal 9 /\
  ~ (1 <= 9 <= 8).
Proof. split; [reflexivity | lia]. Qed.

(** C3, as amended: a value the decoder returns is an unsigned 16-bit
    integer, 1 by default or the raw content of the orientation entry,
    which is not checked against 1..8. It returns exactly 1 when the
    first two bytes are readable and are not the start-of-image marker,
    when the first segment marker is readable and its high byte is not
    0xFF (no metadata segment), and when the first segment is an APP1
    segment whose signature is readable and is not the Exif one
    (malformed metadata). *)
Theorem getImageOrientation_value (buffer : list byte) :
  (forall v, getImageOrientation buffer = Normal v -> 0 <= v <= 65535) /\
  (forall soi,
     getUint16 buffer 0 false = Normal soi -> soi <> 0xFFD8 ->
     getImageOrientation buffer = Normal 1) /\
  (forall marker,
     getUint16 buffer 0 false = Normal 0xFFD8 ->
     getUint16 buffer 2 false = Normal marker ->
     Z.land marker 0xFF00 <> 0xFF00 ->
     getImageOrientation buffer = Normal 1) /\
  (forall exifSig,
     getUint16 buffer 0 false = Normal 0xFFD8 ->
     getUint16 buffer 2 false = Normal 0xFFE1 ->
     getUint32 buffer 6 false = Normal exifSig ->
     exifSig <> 0x45786966 ->
     getImageOrientation buffer = Normal 1).
Proof.
  assert (Hin : forall marker,
            getUint16 buffer 2 false = Normal marker -> 2 < byteLength buffer).
  { intros marker Hread. unfold getUint16, getUint in Hread.
    destruct (_ || _) eqn:Hb; [discriminate|].
    apply orb_false_iff in Hb as [_ Hb]. apply Z.ltb_ge in Hb. lia. }
  split; [|split; [|split]].
  - intros v Hv. pose proof (getImageOrientation_outcome buffer) as H.
    now rewrite Hv in H.
  - apply getImageOrientation_not_soi.
  - intros marker Hsoi Hmarker Hhigh.
    unfold getImageOrientation. rewrite Hsoi. cbn.
    rewrite scan_eq. pose proof (Hin _ Hmarker) as Hlt.
    apply Z.ltb_lt in Hlt. rewrite Hlt.
    unfold scanBody. rewrite Hmarker. cbn.
    destruct (marker =? 65505) eqn:E.
    { apply Z.eqb_eq in E. subst marker. now contradict Hhigh. }
    destruct (Z.land marker 65280 =? 65280) eqn:E'; [|reflexivity].
    apply Z.eqb_eq in E'. contradiction.
  - intros exifSig Hsoi Hmarker Hsig Hne.
    unfold getImageOrientation. rewrite Hsoi. cbn.
    rewrite scan_eq. pose proof (Hin _ Hmarker) as Hlt.
    apply Z.ltb_lt in Hlt. rewrite Hlt.
    unfold scanBody. rewrite Hmarker. cbn.
    unfold readExifOrientation. cbv zeta.
    change (2 + 2 + 2) with 6. rewrite Hsig. cbn.
    destruct (exifSig =? 1165519206) eqn:E; [|reflexivity].
    apply Z.eqb_eq in E. contradiction.
Qed.

Lemma getImageOrientation_value_witness :
  0 <= 9 <= 65535.
Proof.
  apply (proj1 (getImageOrientation_value (exifBuffer Byte.x00 Byte.x09)) 9).
  reflexivity.
Defined.

(** C8, counterexample: on a buffer cut after the first byte of a
    segment marker the scan ends, but by throwing: no value is
    returned. *)
Lemma getImageOrientation_truncated_marker :
  ~ exists v, getImageOrientation [Byte.xff; Byte.xd8; Byte.xff] = Normal v.
Proof. intros [v Hv]. discriminate Hv. Qed.

(** C8, as amended: the segment walk terminates. An iteration that goes
    round again has advanced the offset by at least two bytes, so the
    loop is left after at most [fuel] iterations whenever the bytes
    remaining are at most [2 * fuel]; from offset 2 half the buffer
    length is enough. [getImageOrientation] therefore always ends in
    finite time, with a value or with the [RangeError] of an
    out-of-range read. *)
Theorem getImageOrientation_terminates (buffer : list byte) :
  (forall offset offset',
     scanBody buffer offset = Normal (Continue offset') ->
     offset + 2 <= offset') /\
  (forall fuel offset,
     byteLength buffer - offset <= 2 * Z.of_nat fuel ->
     scanFuel fuel buffer offset = Some (scan buffer offset)) /\
  scanFuel (length buffer / 2)%nat buffer 2 = Some (scan buffer 2) /\
  decoderOutcome (getImageOrientation buffer).
Proof.
  split; [|split; [|split]].
  - apply scanBody_progress.
  - intros fuel offset. apply scanFuel_enough.
  - apply scanFuel_enough. unfold byteLength.
    pose proof (Nat.div_mod_eq (length buffer) 2) as Hd.
    pose proof (Nat.mod_upper_bound (length buffer) 2 ltac:(lia)). lia.
  - pose proof (getImageOrientation_outcome buffer) as H.
    destruct (getImageOrientation buffer); cbn in *; lia || exact H.
Qed.

Lemma getImageOrientation_terminates_witness :
  scanFuel 16 (exifBuffer Byte.x00 Byte.x06) 2 = Some (Normal 6).
Proof.
  apply (proj1 (proj2 (getImageOrientation_terminates
                         (exifBuffer Byte.x00 Byte.x06))) 16%nat 2).
  vm_compute. discriminate.
Defined.

(** ** Properties of the planner and of [processImage] *)

(** *** Comparing numbers that are not NaN *)

Lemma SFcompare_swap (x y : spec_float) :
  SFcompare y x = option_map CompOpp (SFcompare x y).
Proof.
  destruct x as [sx|sx| |sx mx ex], y as [sy|sy| |sy my ey]; cbn;
    try reflexivity;
    try (destruct sx; reflexivity); try (destruct sy; reflexivity);
    try (destruct sx, sy; reflexivity).
  pose proof (Pos.compare_cont_antisym mx my Eq) as Hm. cbn in Hm.
  destruct sx, sy; cbn; try reflexivity;
    rewrite (Z.compare_antisym ex ey); destruct (ex ?= ey); cbn;
    try reflexivity;
    rewrite <- Hm; destruct (Pos.compare_cont Eq mx my); reflexivity.
Qed.

Lemma is_nan_false_spec (a : float) :
  is_nan a = false -> Prim2SF a <> S754_nan.
Proof.
  unfold is_nan. rewrite FloatAxioms.eqb_spec. intros H Hnan.
  rewrite Hnan in H. discriminate H.
Qed.

Lemma SFcompare_defined (x y : spec_float) :
  x <> S754_nan -> y <> S754_nan -> exists c, SFcompare x y = Some c.
Proof.
  destruct x, y; try congruence; cbn; eauto.
Qed.

Lemma number_gt_not_le (a b : float) :
  is_nan a = false -> is_nan b = false ->
  (b <? a)%float = negb (a <=? b)%float.
Proof.
  intros Ha Hb. apply is_nan_false_spec in Ha, Hb.
  rewrite FloatAxioms.ltb_spec, FloatAxioms.leb_spec. unfold SFltb, SFleb.
  rewrite (SFcompare_swap (Prim2SF a) (Prim2SF b)).
  destruct (SFcompare_defined _ _ Ha Hb) as [c Hc]. rewrite Hc.
  destruct c; reflexivity.
Qed.

(** The integer [Math.round] picks for [x = mantissa * 2^e], [e < 0],
    satisfies [n - 1/2 <= x < n + 1/2] (here multiplied by [2 * 2^(-e)]):
    it is the nearest integer, the upper one on a tie. *)
Lemma roundedInteger_nearest (s : bool) (m : positive) (e : Z) :
  e < 0 ->
  let mantissa := cond_Zopp s (Z.pos m) in
  let n := roundedInteger s m e in
  (2 * n - 1) * 2 ^ (- e) <= 2 * mantissa < (2 * n + 1) * 2 ^ (- e).
Proof.
  intros He mantissa n. unfold n, roundedInteger. fold mantissa.
  replace (1 - e) with (Z.succ (- e)) by lia.
  rewrite Z.pow_succ_r by lia.
  set (d := 2 ^ (- e)).
  assert (Hd : 0 < d) by (apply Z.pow_pos_nonneg; lia).
  pose proof (Z.div_mod (2 * mantissa + d) (2 * d) ltac:(lia)) as Hdiv.
  pose proof (Z.mod_pos_bound (2 * mantissa + d) (2 * d) ltac:(lia)) as Hmod.
  nia.
Qed.

(** *** The value of a number *)

(** The number of binary digits of a mantissa. *)
Lemma digits2_pos_bounds (m : positive) :
  2 ^ (Z.pos (digits2_pos m) - 1) <= Z.pos m < 2 ^ Z.pos (digits2_pos m).
Proof.
  induction m as [m IH|m IH|]; cbn [digits2_pos].
  - rewrite Pos2Z.inj_succ.
    replace (Z.succ (Z.pos (digits2_pos m)) - 1)
      with (Z.succ (Z.pos (digits2_pos m) - 1)) by lia.
    rewrite !Z.pow_succ_r by lia. lia.
  - rewrite Pos2Z.inj_succ.
    replace (Z.succ (Z.pos (digits2_pos m)) - 1)
      with (Z.succ (Z.pos (digits2_pos m) - 1)) by lia.
    rewrite !Z.pow_succ_r by lia. lia.
  - cbn. lia.
Qed.

Lemma digits2_pos_le (m : positive) (d : Z) :
  0 <= d -> Z.pos m < 2 ^ d -> Z.pos (digits2_pos m) <= d.
Proof.
  intros Hd Hm. pose proof (digits2_pos_bounds m) as [Hlow _].
  destruct (Z_le_gt_dec (Z.pos (digits2_pos m)) d) as [|Hgt]; [assumption|].
  assert (2 ^ d <= 2 ^ (Z.pos (digits2_pos m) - 1))
    by (apply Z.pow_le_mono_r; lia).
  lia.
Qed.

(** The mantissa of a binary64 number has at most 53 bits. *)
Lemma valid_mantissa (s : bool) (m : positive) (e : Z) :
  valid_binary (S754_finite s m e) = true -> Z.pos m < 2 ^ 53.
Proof.
  cbn. unfold bounded, canonical_mantissa, fexp, emin, FloatOps.prec, FloatOps.emax.
  intros H. apply andb_prop in H as [H _]. apply Z.eqb_eq in H.
  pose proof (digits2_pos_bounds m) as [_ Hup].
  assert (Z.pos (digits2_pos m) <= 53) by lia.
  assert (2 ^ Z.pos (digits2_pos m) <= 2 ^ 53) by (apply Z.pow_le_mono_r; lia).
  lia.
Qed.

Lemma iter_xO_value (m k : positive) :
  Z.pos (Pos.iter xO m k) = Z.pos m * 2 ^ Z.pos k.
Proof.
  revert m. induction k as [|k IH] using Pos.peano_ind; intros m.
  - cbn. lia.
  - rewrite Pos.iter_succ, Pos2Z.inj_xO, IH, Pos2Z.inj_succ, Z.pow_succ_r by lia.
    lia.
Qed.

Lemma iter_xO_digits (m k : positive) :
  digits2_pos (Pos.iter xO m k) = (digits2_pos m + k)%positive.
Proof.
  revert m. induction k as [|k IH] using Pos.peano_ind; intros m.
  - cbn. lia.
  - rewrite Pos.iter_succ. cbn [digits2_pos]. rewrite IH. lia.
Qed.

(** Rounding a mantissa that is canonical already changes nothing. *)
Lemma binary_round_aux_canonical (s : bool) (m : positive) (e : Z) :
  fexp FloatOps.prec FloatOps.emax (Z.pos (digits2_pos m) + e) = e ->
  e <= FloatOps.emax - FloatOps.prec ->
  binary_round_aux FloatOps.prec FloatOps.emax s (Z.pos m) e loc_Exact
  = S754_finite s m e.
Proof.
  intros Hcanonical He. unfold binary_round_aux, shr_fexp.
  cbn [Zdigits2 shr_record_of_loc]. rewrite Hcanonical, Z.sub_diag.
  cbn [shr shr_m loc_of_shr_record round_nearest_even Zdigits2 shr_record_of_loc].
  rewrite Hcanonical, Z.sub_diag. cbn [shr shr_m].
  apply Z.leb_le in He. now rewrite He.
Qed.

(** An integer below 2^53 is a binary64 number: its mantissa is only
    shifted to 53 bits. *)
Lemma binary_round_integer (s : bool) (m : positive) :
  Z.pos m < 2 ^ 53 ->
  exists m' e',
    binary_round FloatOps.prec FloatOps.emax s m 0 = S754_finite s m' e' /\
    e' <= 0 /\ Z.pos m' = Z.pos m * 2 ^ (- e').
Proof.
  intros Hm. pose proof (digits2_pos_le m 53 ltac:(lia) Hm) as Hd.
  unfold binary_round, shl_align.
  assert (Hfexp : fexp FloatOps.prec FloatOps.emax (Z.pos (digits2_pos m) + 0)
                  = Z.pos (digits2_pos m) - 53).
  { unfold fexp, emin, FloatOps.prec, FloatOps.emax. lia. }
  rewrite Hfexp.
  destruct (Z.pos (digits2_pos m) - 53 - 0) as [|k|k] eqn:Hk; [| lia |].
  - exists m, 0. split; [|split; [lia|cbn; lia]].
    apply binary_round_aux_canonical; [|unfold FloatOps.prec, FloatOps.emax; lia].
    unfold fexp, emin, FloatOps.prec, FloatOps.emax. lia.
  - exists (Pos.iter xO m k), (Z.pos (digits2_pos m) - 53).
    split; [|split; [lia|]].
    + apply binary_round_aux_canonical;
        [|unfold FloatOps.prec, FloatOps.emax; lia].
      rewrite iter_xO_digits. unfold fexp, emin, FloatOps.prec, FloatOps.emax. lia.
    + rewrite iter_xO_value. f_equal. f_equal. lia.
Qed.

(** [numberOfZ n] is the number [n], exactly, for [0 < |n| < 2^53]: a
    mantissa [m'] and an exponent [e' <= 0] with [m' * 2^e' = |n|], and
    the sign of [n]. *)
Lemma numberOfZ_exact (n : Z) :
  n <> 0 -> Z.abs n < 2 ^ 53 ->
  exists m' e',
    Prim2SF (numberOfZ n) = S754_finite (n <? 0) m' e' /\
    e' <= 0 /\ Z.pos m' = Z.abs n * 2 ^ (- e').
Proof.
  intros Hn Hsmall. unfold numberOfZ.
  assert (Hw : 2 ^ 53 < Uint63.wB) by reflexivity.
  destruct (n <? 0) eqn:Hneg.
  - apply Z.ltb_lt in Hneg.
    rewrite FloatAxioms.opp_spec, FloatAxioms.of_uint63_spec, Uint63.of_Z_spec.
    rewrite Z.mod_small by lia.
    destruct n as [|p|p]; try lia.
    change (- Z.neg p) with (Z.pos p).
    change (binary_normalize FloatOps.prec FloatOps.emax (Z.pos p) 0 false)
      with (binary_round FloatOps.prec FloatOps.emax false p 0).
    destruct (binary_round_integer false p ltac:(lia)) as (m' & e' & Hround & He & Hm).
    rewrite Hround. exists m', e'. cbn [SFopp negb]. auto.
  - apply Z.ltb_ge in Hneg.
    rewrite FloatAxioms.of_uint63_spec, Uint63.of_Z_spec.
    rewrite Z.mod_small by lia.
    destruct n as [|p|p]; try lia.
    change (binary_normalize FloatOps.prec FloatOps.emax (Z.pos p) 0 false)
      with (binary_round FloatOps.prec FloatOps.emax false p 0).
    destruct (binary_round_integer false p ltac:(lia)) as (m' & e' & Hround & He & Hm).
    rewrite Hround. exists m', e'. auto.
Qed.

(** What [Math.round] returns for [p]: for a finite non-zero
    [p = ±m * 2^e] there is an integer [n] with [n - 1/2 <= p < n + 1/2]
    whose value the result has, a zero result keeping the sign of [p];
    any other [p] is returned as it is. *)
Definition nearestInteger (p r : float) : Prop :=
  match Prim2SF p with
  | S754_finite s m e =>
      exists n : Z,
        (2 * n - 1) * 2 ^ Z.max (- e) 0
        <= 2 * cond_Zopp s (Z.pos m) * 2 ^ Z.max e 0
        < (2 * n + 1) * 2 ^ Z.max (- e) 0 /\
        match Prim2SF r with
        | S754_zero s' => n = 0 /\ s' = s
        | S754_finite s' m' e' =>
            cond_Zopp s' (Z.pos m') * 2 ^ Z.max e' 0 = n * 2 ^ Z.max (- e') 0
        | _ => False
        end
  | _ => r = p
  end.

Lemma Math_round_nearest (p : float) : nearestInteger p (Math_round p).
Proof.
  unfold nearestInteger, Math_round.
  pose proof (FloatAxioms.Prim2SF_valid p) as Hvalid.
  destruct (Prim2SF p) as [| | |s m e] eqn:Hp; try reflexivity.
  apply valid_mantissa in Hvalid.
  destruct (0 <=? e) eqn:He.
  - apply Z.leb_le in He. exists (cond_Zopp s (Z.pos m) * 2 ^ e).
    rewrite Hp, !Z.max_r, !Z.max_l by lia. rewrite Z.pow_0_r. split; lia.
  - apply Z.leb_gt in He.
    pose proof (roundedInteger_nearest s m e He) as Hnear. cbv zeta in Hnear.
    set (n := roundedInteger s m e) in *.
    exists n. rewrite Z.max_l, Z.max_r by lia. rewrite Z.pow_0_r.
    split; [lia|].
    assert (Hpow : 2 <= 2 ^ (- e)).
    { change 2 with (2 ^ 1) at 1. apply Z.pow_le_mono_r; lia. }
    destruct (n =? 0) eqn:Hn.
    + apply Z.eqb_eq in Hn. destruct s; cbn; auto.
    + apply Z.eqb_neq in Hn.
      assert (Hsign : (n <? 0) = s /\ Z.abs n < 2 ^ 53).
      { destruct s; cbn [cond_Zopp] in Hnear.
        - assert (n < 0) by nia. split; [now apply Z.ltb_lt|]. nia.
        - assert (0 < n) by nia. split; [apply Z.ltb_ge; lia|]. nia. }
      destruct Hsign as [Hsign Hsmall].
      destruct (numberOfZ_exact n Hn Hsmall) as (m' & e' & Hr & He' & Hm').
      rewrite Hr, Hsign, Z.max_r, Z.max_l, Z.pow_0_r by lia.
      rewrite <- Hsign. destruct (n <? 0) eqn:Hlt; cbn [cond_Zopp].
      * apply Z.ltb_lt in Hlt. rewrite Hm'. lia.
      * apply Z.ltb_ge in Hlt. rewrite Hm'. lia.
Qed.

Lemma SFcompare_refl (x : spec_float) :
  x <> S754_nan -> SFcompare x x = Some Eq.
Proof.
  destruct x as [s|s| |s m e]; try congruence; intros _; cbn.
  - reflexivity.
  - now destruct s.
  - rewrite Z.compare_refl, Pos.compare_cont_refl. now destruct s.
Qed.

(** [Math.min] of two numbers other than NaN is one of them and is not
    above either. *)
Lemma Math_min_least (a b : float) :
  is_nan a = false -> is_nan b = false ->
  (Math_min a b = a \/ Math_min a b = b) /\
  (Math_min a b <=? a)%float = true /\ (Math_min a b <=? b)%float = true.
Proof.
  intros Ha Hb. unfold Math_min. rewrite Ha, Hb. cbn [orb].
  apply is_nan_false_spec in Ha, Hb.
  assert (Haa : (a <=? a)%float = true).
  { rewrite FloatAxioms.leb_spec. unfold SFleb. now rewrite SFcompare_refl. }
  assert (Hbb : (b <=? b)%float = true).
  { rewrite FloatAxioms.leb_spec. unfold SFleb. now rewrite SFcompare_refl. }
  assert (Horder :
    ((a <? b)%float = true -> (a <=? b)%float = true) /\
    ((b <? a)%float = true -> (b <=? a)%float = true) /\
    ((a <? b)%float = false -> (b <? a)%float = false ->
     (a <=? b)%float = true /\ (b <=? a)%float = true)).
  { rewrite !FloatAxioms.ltb_spec, !FloatAxioms.leb_spec. unfold SFltb, SFleb.
    rewrite (SFcompare_swap (Prim2SF a) (Prim2SF b)).
    destruct (SFcompare_defined _ _ Ha Hb) as [c Hc]. rewrite Hc.
    destruct c; cbn; auto; split; try discriminate; auto;
      split; try discriminate; auto. }
  destruct Horder as (Hlt & Hgt & Heq).
  destruct (a <? b)%float eqn:Hab; [auto|].
  destruct (b <? a)%float eqn:Hba; [auto|].
  destruct (Heq eq_refl eq_refl) as [Hle Hge].
  destruct (is_zero a && get_sign a); auto.
Qed.

(** C4: when neither dimension exceeds its bound the planned dimensions
    are the original ones; otherwise both are multiplied by the one
    factor [Math.min(maxWidth / width, maxHeight / height)] and each
    product is rounded to the nearest integer. The arithmetic is that of
    the code, on binary64 numbers, for all numbers other than NaN:
    - the factor is one of the two quotients and is not above either
      (it is NaN when a quotient is);
    - a planned dimension [r] is the integer nearest to the binary64
      product [p] of the dimension and the factor: for [p = ±m * 2^e]
      there is an integer [n] with [n - 1/2 <= p < n + 1/2] whose value
      [r] has, exactly (a zero keeps the sign of [p]); a product that is
      zero, infinite or NaN is returned as it is.
    A 4000x2000 image within 1920x1080 gives 1920x960, and an 800x600
    image is unchanged. *)
Theorem scaledDimensions_spec (width height maxWidth maxHeight : float) :
  is_nan width = false -> is_nan height = false ->
  is_nan maxWidth = false -> is_nan maxHeight = false ->
  let nearest (p r : float) : Prop :=
    match Prim2SF p with
    | S754_finite s m e =>
        exists n : Z,
          (2 * n - 1) * 2 ^ Z.max (- e) 0
          <= 2 * cond_Zopp s (Z.pos m) * 2 ^ Z.max e 0
          < (2 * n + 1) * 2 ^ Z.max (- e) 0 /\
          match Prim2SF r with
          | S754_zero s' => n = 0 /\ s' = s
          | S754_finite s' m' e' =>
              cond_Zopp s' (Z.pos m') * 2 ^ Z.max e' 0 = n * 2 ^ Z.max (- e') 0
          | _ => False
          end
    | _ => r = p
    end in
  let planned := scaledDimensions width height maxWidth maxHeight in
  planned =
    (if (width <=? maxWidth)%float && (height <=? maxHeight)%float
     then (width, height)
     else
       let ratio :=
         Math_min (maxWidth / width)%float (maxHeight / height)%float in
       (Math_round (width * ratio)%float, Math_round (height * ratio)%float)) /\
  scaledDimensions 4000 2000 1920 1080 = (1920%float, 960%float) /\
  scaledDimensions 800 600 1920 1080 = (800%float, 600%float) /\
  ((width <=? maxWidth)%float && (height <=? maxHeight)%float = true ->
   planned = (width, height)) /\
  ((width <=? maxWidth)%float && (height <=? maxHeight)%float = false ->
   exists ratio : float,
     (if is_nan (maxWidth / width)%float || is_nan (maxHeight / height)%float
      then is_nan ratio = true
      else
        (ratio = (maxWidth / width)%float \/ ratio = (maxHeight / height)%float) /\
        (ratio <=? maxWidth / width)%float = true /\
        (ratio <=? maxHeight / height)%float = true) /\
     nearest (width * ratio)%float planned.1 /\
     nearest (height * ratio)%float planned.2).
Proof.
  intros Hw Hh Hmw Hmh nearest planned.
  assert (Hplanned : planned =
    (if (width <=? maxWidth)%float && (height <=? maxHeight)%float
     then (width, height)
     else
       let ratio :=
         Math_min (maxWidth / width)%float (maxHeight / height)%float in
       (Math_round (width * ratio)%float, Math_round (height * ratio)%float))).
  { unfold planned, scaledDimensions.
    rewrite (number_gt_not_le width maxWidth Hw Hmw).
    rewrite (number_gt_not_le height maxHeight Hh Hmh).
    destruct (width <=? maxWidth)%float, (height <=? maxHeight)%float; reflexivity. }
  split; [exact Hplanned|]. split; [reflexivity|]. split; [reflexivity|].
  split; intros Hwithin; rewrite Hwithin in Hplanned; [exact Hplanned|].
  cbv zeta in Hplanned.
  exists (Math_min (maxWidth / width)%float (maxHeight / height)%float).
  split; [|rewrite Hplanned; split; apply Math_round_nearest].
  destruct (is_nan (maxWidth / width)%float) eqn:Ha;
    [unfold Math_min; rewrite Ha; reflexivity|].
  destruct (is_nan (maxHeight / height)%float) eqn:Hb;
    [unfold Math_min; rewrite Ha, Hb; reflexivity|].
  cbn [orb]. now apply Math_min_least.
Qed.

(** The product is rounded twice, once as a binary64 product and once by
    [Math.round]: 6539x2012 within 1558x274 scales the width to 890.5
    exactly, the binary64 product is just below it, and the planned
    width is 890. *)
Example scaledDimensions_half :
  scaledDimensions 6539 2012 1558 274 = (890%float, 274%float).
Proof. reflexivity. Qed.

Lemma scaledDimensions_spec_witness :
  scaledDimensions 3000 4000 1920 1080 = (810%float, 1080%float).
Proof.
  exact (proj1 (scaledDimensions_spec 3000 4000 1920 1080
                  eq_refl eq_refl eq_refl eq_refl)).
Defined.

(** *** Orientation and the canvas dimensions *)

(** C5, evaluated on the code: for each of the codes 5 to 8 the canvas is
    created with the planned width and height swapped, and
    [applyOrientation] then swaps [canvas.width] and [canvas.height] once
    more, so the canvas that is drawn and encoded has the planned,
    unswapped dimensions, while the reported [compressedDimensions] (the
    display dimensions) are the swapped ones. For the codes 1 to 4 both
    are the planned dimensions. *)
Theorem orientedCanvas_dimensions (width height : float) :
  Forall (fun orientation =>
            displayDimensions orientation width height = (height, width) /\
            exists canvas,
              orientedCanvas true orientation width height = Normal canvas /\
              (Worker.width canvas, Worker.height canvas) = (width, height))
         [5; 6; 7; 8] /\
  Forall (fun orientation =>
            displayDimensions orientation width height = (width, height) /\
            exists canvas,
              orientedCanvas true orientation width height = Normal canvas /\
              (Worker.width canvas, Worker.height canvas) = (width, height))
         [1; 2; 3; 4].
Proof.
  split; repeat constructor; eexists; (split; [reflexivity|reflexivity]).
Qed.

(** *** Results *)

(** What the Result built at the end of the [try] block looks like. *)
Lemma processImageBody_success (P : Platform) (data : ProcessImageMessage)
    (built : ProcessImageResult) :
  processImageBody P data = Normal built ->
  id built = msg_id data /\
  filename built = msg_filename data /\
  success built = true /\
  is_Some (compressedData built) /\
  error built = None.
Proof.
  unfold processImageBody.
  repeat match goal with
         | |- context [let '(_, _) := ?p in _] => destruct p
         | |- (?c ≫= _) = Normal _ -> _ =>
             destruct c; cbn; [|discriminate]
         end.
  intros [= <-]. cbn. eauto 10.
Qed.


(** C10: a failure Result reports size 0 and 0x0 dimensions, whatever
    the input bytes were. *)
Theorem processImage_failure_zero (P : Platform) (data : ProcessImageMessage) :
  success (processImage P data) = false ->
  originalSize (processImage P data) = 0 /\
  compressedSize (processImage P data) = 0 /\
  originalDimensions (processImage P data)
    = {| dim_width := 0; dim_height := 0 |} /\
  compressedDimensions (processImage P data)
    = {| dim_width := 0; dim_height := 0 |}.
Proof.
  unfold processImage.
  destruct (processImageBody P data) as [built|e] eqn:Hbody; cbn.
  - intros Hfail.
    destruct (processImageBody_success P data built Hbody) as (_ & _ & Hsucc & _).
    congruence.
  - auto.
Qed.

Example processImage_rotated :
  processImage (decodingPlatform 4000 2000)
    (message "a" (exifBuffer Byte.x00 Byte.x06))
  = {| id := "a"; success := true; originalSize := 34; compressedSize := 1;
       originalDimensions := {| dim_width := 4000; dim_height := 2000 |};
       compressedDimensions := {| dim_width := 960; dim_height := 1920 |};
       compressedData := Some [Byte.x2a]; filename := "a.jpg"; error := None |}.
Proof. reflexivity. Qed.

Example orientedCanvas_rotated :
  orientedCanvas true 6 1920 960
  = Normal {| width := 1920; height := 960;
              transforms := [(0, 1, -1, 0, 1920, 0)%float] |}.
Proof. reflexivity. Qed.

Example processImage_truncated_exif :
  processImage (decodingPlatform 800 600)
    (message "b" [Byte.xff; Byte.xd8; Byte.xff; Byte.xe1])
  = failureResult (message "b" [Byte.xff; Byte.xd8; Byte.xff; Byte.xe1]) RangeError.
Proof. reflexivity. Qed.

Lemma processImage_failure_zero_witness :
  originalSize (processImage undecodablePlatform
                  (message "c" [Byte.x00; Byte.x01; Byte.x02])) = 0.
Proof.
  exact (proj1 (processImage_failure_zero undecodablePlatform
                  (message "c" [Byte.x00; Byte.x01; Byte.x02]) eq_refl)).
Defined.

(** ** Further properties of the decoder *)

(** *** Reads do not depend on what precedes or follows *)

(** A read at [byteLength pre + k] in [pre ++ view] is the read at [k]
    in [view]. *)
Lemma getUint_shift (size : nat) (pre view : list byte) (k : Z) littleEndian :
  0 <= k ->
  getUint size (pre ++ view) (byteLength pre + k) littleEndian
  = getUint size view k littleEndian.
Proof.
  intros Hk. unfold getUint, byteLength. rewrite length_app.
  replace (Z.of_nat (length pre) + k <? 0) with (k <? 0)
    by (destruct (Z.ltb_spec k 0), (Z.ltb_spec (Z.of_nat (length pre) + k) 0); lia).
  replace (Z.of_nat (length pre + length view)
           <? Z.of_nat (length pre) + k + Z.of_nat size)
    with (Z.of_nat (length view) <? k + Z.of_nat size)
    by (destruct (Z.ltb_spec (Z.of_nat (length view)) (k + Z.of_nat size)),
          (Z.ltb_spec (Z.of_nat (length pre + length view))
             (Z.of_nat (length pre) + k + Z.of_nat size)); lia).
  replace (Z.to_nat (Z.of_nat (length pre) + k))
    with (length pre + Z.to_nat k)%nat by lia.
  now rewrite drop_app_add.
Qed.

(** A read that fits in [view] is the same in [view ++ rest]. *)
Lemma getUint_app_l (size : nat) (view rest : list byte) (k : Z) littleEndian :
  0 <= k -> k + Z.of_nat size <= byteLength view ->
  getUint size (view ++ rest) k littleEndian = getUint size view k littleEndian.
Proof.
  intros Hk Hfit. unfold getUint, byteLength in *. rewrite length_app.
  replace (Z.of_nat (length view + length rest) <? k + Z.of_nat size) with false
    by (symmetry; apply Z.ltb_ge; lia).
  replace (Z.of_nat (length view) <? k + Z.of_nat size) with false
    by (symmetry; apply Z.ltb_ge; lia).
  destruct (k <? 0); [reflexivity|]. cbn [orb].
  rewrite drop_app_le by lia.
  rewrite take_app_le by (rewrite length_drop; lia).
  reflexivity.
Qed.

Lemma getUint_shift_eq (size : nat) (pre view : list byte) (o k : Z) littleEndian :
  o = byteLength pre + k -> 0 <= k ->
  getUint size (pre ++ view) o littleEndian = getUint size view k littleEndian.
Proof. intros ->. apply getUint_shift. Qed.

Lemma bind_ext {A B : Type} (c c' : completion A) (f f' : A -> completion B) :
  c = c' -> (forall a, c' = Normal a -> f a = f' a) -> c ≫= f = c' ≫= f'.
Proof. intros -> Hf. destruct c' as [a|e]; cbn; auto. Qed.

(** Splits an equation between two read sequences on their first
    reads, which are the same read moved by [byteLength pre]. *)
#[local] Ltac shift_read v H :=
  apply bind_ext;
  [ apply getUint_shift_eq; [ring | lia]
  | intros v H ].

Lemma findOrientationTag_shift pre view tiffOffset ifdOffset littleEndian
    remaining i :
  0 <= tiffOffset -> 0 <= ifdOffset -> 0 <= i ->
  findOrientationTag (pre ++ view) (byteLength pre + tiffOffset) ifdOffset
    littleEndian remaining i
  = findOrientationTag view tiffOffset ifdOffset littleEndian remaining i.
Proof.
  intros Ht Hifd. revert i.
  induction remaining as [|n IH]; intros i Hi; cbn [findOrientationTag];
    [reflexivity|].
  unfold getUint16. cbv zeta.
  shift_read tag Htag.
  destruct (tag =? 274); [|apply IH; lia].
  shift_read v Hv. reflexivity.
Qed.

Lemma readExifOrientation_shift pre view offset :
  0 <= offset ->
  readExifOrientation (pre ++ view) (byteLength pre + offset)
  = readExifOrientation view offset.
Proof.
  intros Ho. unfold readExifOrientation, getUint16, getUint32. cbv zeta.
  shift_read exifSig Hsig.
  destruct (exifSig =? 1165519206); [|reflexivity].
  shift_read byteOrder Horder.
  shift_read ifdOffset Hifd. apply getUint_range in Hifd.
  shift_read tagCount Hcount.
  replace (byteLength pre + offset + 2 + 6)
    with (byteLength pre + (offset + 2 + 6)) by ring.
  rewrite findOrientationTag_shift by lia. reflexivity.
Qed.

(** The loop body at [byteLength pre + k] in [pre ++ view] does what it
    does at [k] in [view], a new offset being moved by [byteLength pre]. *)
Definition shiftControl (d : Z) (c : loopControl) : loopControl :=
  match c with
  | Continue offset' => Continue (d + offset')
  | Return v => Return v
  end.

Lemma scanBody_shift pre view k :
  0 <= k ->
  scanBody (pre ++ view) (byteLength pre + k)
  = (c ← scanBody view k; Normal (shiftControl (byteLength pre) c)).
Proof.
  intros Hk. unfold scanBody, getUint16. cbv zeta.
  destruct (getUint 2 view k false) as [marker|e] eqn:Hmarker.
  2:{ rewrite (getUint_shift_eq 2 pre view _ k false eq_refl Hk), Hmarker.
      reflexivity. }
  rewrite (getUint_shift_eq 2 pre view _ k false eq_refl Hk), Hmarker.
  cbn [mbind completion_bind].
  destruct (marker =? 65505).
  { replace (byteLength pre + k + 2) with (byteLength pre + (k + 2)) by ring.
    rewrite readExifOrientation_shift by lia.
    destruct (readExifOrientation view (k + 2)); reflexivity. }
  destruct (negb _); [reflexivity|].
  rewrite (getUint_shift_eq 2 pre view _ (k + 2) false) by (ring || lia).
  destruct (getUint 2 view (k + 2) false) as [len|e]; cbn; [|reflexivity].
  f_equal. f_equal. ring.
Qed.

Lemma scanFuel_shift fuel pre view k :
  0 <= k ->
  scanFuel fuel (pre ++ view) (byteLength pre + k) = scanFuel fuel view k.
Proof.
  revert k. induction fuel as [|fuel IH]; intros k Hk; cbn [scanFuel];
    replace (byteLength pre + k <? byteLength (pre ++ view))
      with (k <? byteLength view)
      by (unfold byteLength; rewrite length_app;
          destruct (Z.ltb_spec k (Z.of_nat (length view))),
            (Z.ltb_spec (Z.of_nat (length pre) + k)
               (Z.of_nat (length pre + length view))); lia);
    [reflexivity|].
  destruct (k <? byteLength view); [|reflexivity].
  rewrite scanBody_shift by exact Hk.
  destruct (scanBody view k) as [[offset'|v]|e] eqn:Hbody; cbn; try reflexivity.
  apply IH. apply scanBody_progress in Hbody. lia.
Qed.

(** The walk from an offset on depends only on the bytes from that
    offset on. *)
Lemma scan_shift pre view k :
  0 <= k -> scan (pre ++ view) (byteLength pre + k) = scan view k.
Proof.
  intros Hk.
  pose proof (scanFuel_enough (pre ++ view) (length view) (byteLength pre + k)) as H1.
  pose proof (scanFuel_enough view (length view) k) as H2.
  rewrite scanFuel_shift in H1 by exact Hk.
  unfold byteLength in *. rewrite length_app in H1.
  specialize (H1 ltac:(lia)). specialize (H2 ltac:(lia)).
  congruence.
Qed.

(** A segment: the marker [0xFF, code], the two length bytes and the
    payload. *)
Definition segment (code lengthHi lengthLo : byte) (payload : list byte)
    : list byte :=
  Byte.xff :: code :: lengthHi :: lengthLo :: payload.

Definition soi : list byte := [Byte.xff; Byte.xd8].

Lemma getUint16_head (a b : byte) (rest : list byte) :
  getUint 2 (a :: b :: rest) 0 false = Normal (byteValue a * 256 + byteValue b).
Proof.
  unfold getUint, byteLength. cbn [length].
  replace (_ || _) with false
    by (symmetry; apply orb_false_iff; split; [reflexivity | apply Z.ltb_ge; lia]).
  cbn. f_equal.
Qed.

Lemma getUint16_second (a b c d : byte) (rest : list byte) :
  getUint 2 (a :: b :: c :: d :: rest) 2 false
  = Normal (byteValue c * 256 + byteValue d).
Proof.
  change (a :: b :: c :: d :: rest) with ([a; b] ++ c :: d :: rest).
  change 2 with (byteLength [a; b] + 0).
  rewrite getUint_shift by lia. apply getUint16_head.
Qed.

(** A marker [0xFF, code] with a code other than [0xE1] is not the
    APP1 marker and has the high byte of a marker. *)
Lemma marker_not_app1 (code : byte) :
  code <> Byte.xe1 ->
  (255 * 256 + byteValue code =? 0xFFE1) = false /\
  negb (Z.land (255 * 256 + byteValue code) 0xFF00 =? 0xFF00) = false.
Proof.
  intros Hcode. destruct code; first [congruence | split; reflexivity].
Qed.

Lemma getImageOrientation_soi (rest : list byte) :
  getImageOrientation (soi ++ rest) = scan rest 0.
Proof.
  unfold getImageOrientation, getUint16. cbv zeta.
  assert (Hhead : getUint 2 (soi ++ rest) 0 false = Normal 65496)
    by apply getUint16_head.
  rewrite Hhead.
  change (scan (soi ++ rest) (byteLength soi + 0) = scan rest 0).
  apply scan_shift. lia.
Qed.

(** X1. A leading segment other than APP1 whose length field counts
    itself and the payload is skipped: the orientation is that of the
    file without the segment. *)
Theorem getImageOrientation_skips_segment
    (code lengthHi lengthLo : byte) (payload rest : list byte) :
  code <> Byte.xe1 ->
  byteValue lengthHi * 256 + byteValue lengthLo = 2 + byteLength payload ->
  getImageOrientation (soi ++ segment code lengthHi lengthLo payload ++ rest)
  = getImageOrientation (soi ++ rest).
Proof.
  intros Hcode Hlen. rewrite !getImageOrientation_soi.
  set (seg := segment code lengthHi lengthLo payload).
  assert (Hseg : byteLength seg = 4 + byteLength payload).
  { unfold seg, segment, byteLength. cbn [length]. lia. }
  rewrite scan_eq.
  replace (0 <? byteLength (seg ++ rest)) with true
    by (symmetry; apply Z.ltb_lt; unfold byteLength in *;
        rewrite length_app; lia).
  destruct (marker_not_app1 code Hcode) as [Happ1 Hhigh].
  assert (Hbody : scanBody (seg ++ rest) 0
                  = Normal (Continue (byteLength seg + 0))).
  { unfold scanBody, getUint16. cbv zeta.
    assert (Hmarker : getUint 2 (seg ++ rest) 0 false
                      = Normal (255 * 256 + byteValue code))
      by apply getUint16_head.
    assert (Hlength : getUint 2 (seg ++ rest) (0 + 2) false
                      = Normal (byteValue lengthHi * 256 + byteValue lengthLo))
      by apply getUint16_second.
    rewrite Hmarker. cbn [mbind completion_bind].
    rewrite Happ1, Hhigh, Hlength. cbn [mbind completion_bind].
    do 2 f_equal. lia. }
  rewrite Hbody. apply scan_shift. lia.
Qed.

Lemma getImageOrientation_skips_segment_witness :
  getImageOrientation
    (soi ++ segment Byte.xe0 Byte.x00 Byte.x04 [Byte.x4a; Byte.x46]
         ++ drop 2 (exifBuffer Byte.x00 Byte.x06))
  = Normal 6.
Proof.
  rewrite (getImageOrientation_skips_segment
             Byte.xe0 Byte.x00 Byte.x04 [Byte.x4a; Byte.x46]
             (drop 2 (exifBuffer Byte.x00 Byte.x06))
             ltac:(discriminate) eq_refl).
  reflexivity.
Defined.

(** *** The directory walk *)

(** The offset of entry [j] of a directory. *)
Definition entryOffset (tiffOffset ifdOffset j : Z) : Z :=
  tiffOffset + ifdOffset + 2 + j * 12.

Lemma findOrientationTag_first view tiffOffset ifdOffset littleEndian
    (remaining k : nat) (i v : Z) :
  (k < remaining)%nat ->
  (forall j, (j < k)%nat ->
     exists tag,
       getUint16 view (entryOffset tiffOffset ifdOffset (i + Z.of_nat j))
         littleEndian = Normal tag /\
       tag <> 0x0112) ->
  getUint16 view (entryOffset tiffOffset ifdOffset (i + Z.of_nat k))
    littleEndian = Normal 0x0112 ->
  getUint16 view (entryOffset tiffOffset ifdOffset (i + Z.of_nat k) + 8)
    littleEndian = Normal v ->
  findOrientationTag view tiffOffset ifdOffset littleEndian remaining i
  = Normal (Some v).
Proof.
  revert remaining i. induction k as [|k IH]; intros remaining i Hk Hskip Htag Hv;
    (destruct remaining as [|n]; [lia|]); cbn [findOrientationTag]; cbv zeta;
    unfold entryOffset in *.
  - replace (i + Z.of_nat 0) with i in * by lia.
    rewrite Htag. cbn. rewrite Hv. reflexivity.
  - destruct (Hskip 0%nat ltac:(lia)) as (tag & Hread & Hne).
    replace (i + Z.of_nat 0) with i in Hread by lia.
    rewrite Hread. cbn [mbind completion_bind].
    replace (tag =? 274) with false by (symmetry; apply Z.eqb_neq; exact Hne).
    apply IH.
    + lia.
    + intros j Hj. destruct (Hskip (S j) ltac:(lia)) as (tag' & Hread' & Hne').
      exists tag'. split; [|exact Hne'].
      replace (i + 1 + Z.of_nat j) with (i + Z.of_nat (S j)) by lia. exact Hread'.
    + replace (i + 1 + Z.of_nat k) with (i + Z.of_nat (S k)) by lia. exact Htag.
    + replace (i + 1 + Z.of_nat k) with (i + Z.of_nat (S k)) by lia. exact Hv.
Qed.

Lemma findOrientationTag_none view tiffOffset ifdOffset littleEndian
    (remaining : nat) (i : Z) :
  (forall j, (j < remaining)%nat ->
     exists tag,
       getUint16 view (entryOffset tiffOffset ifdOffset (i + Z.of_nat j))
         littleEndian = Normal tag /\
       tag <> 0x0112) ->
  findOrientationTag view tiffOffset ifdOffset littleEndian remaining i
  = Normal None.
Proof.
  revert i. induction remaining as [|n IH]; intros i Hskip;
    cbn [findOrientationTag]; cbv zeta; [reflexivity|].
  unfold entryOffset in *.
  destruct (Hskip 0%nat ltac:(lia)) as (tag & Hread & Hne).
  replace (i + Z.of_nat 0) with i in Hread by lia.
  rewrite Hread. cbn [mbind completion_bind].
  replace (tag =? 274) with false by (symmetry; apply Z.eqb_neq; exact Hne).
  apply IH. intros j Hj.
  destruct (Hskip (S j) ltac:(lia)) as (tag' & Hread' & Hne').
  exists tag'. split; [|exact Hne'].
  replace (i + 1 + Z.of_nat j) with (i + Z.of_nat (S j)) by lia. exact Hread'.
Qed.

Lemma readExifOrientation_entry_value view offset byteOrder ifdOffset tagCount
    (k : nat) (v : Z) :
  let tiffOffset := offset + 2 + 6 in
  let littleEndian := byteOrder =? 0x4949 in
  getUint32 view (offset + 2) false = Normal 0x45786966 ->
  getUint16 view tiffOffset false = Normal byteOrder ->
  getUint32 view (tiffOffset + 4) littleEndian = Normal ifdOffset ->
  getUint16 view (tiffOffset + ifdOffset) littleEndian = Normal tagCount ->
  Z.of_nat k < tagCount ->
  (forall j, (j < k)%nat ->
     exists tag,
       getUint16 view (entryOffset tiffOffset ifdOffset (Z.of_nat j))
         littleEndian = Normal tag /\
       tag <> 0x0112) ->
  getUint16 view (entryOffset tiffOffset ifdOffset (Z.of_nat k)) littleEndian
    = Normal 0x0112 ->
  getUint16 view (entryOffset tiffOffset ifdOffset (Z.of_nat k) + 8) littleEndian
    = Normal v ->
  readExifOrientation view offset = Normal v.
Proof.
  intros tiffOffset littleEndian Hsig Horder Hifd Hcount Hk Hskip Htag Hv.
  unfold readExifOrientation. cbv zeta.
  rewrite Hsig. cbn [mbind completion_bind].
  change (1165519206 =? 1165519206) with true. cbv iota.
  fold tiffOffset. rewrite Horder. cbn [mbind completion_bind].
  fold littleEndian. rewrite Hifd. cbn [mbind completion_bind].
  rewrite Hcount. cbn [mbind completion_bind].
  rewrite (findOrientationTag_first view tiffOffset ifdOffset littleEndian
             (Z.to_nat tagCount) k 0 v); [reflexivity|lia|..].
  - intros j Hj. rewrite Z.add_0_l. now apply Hskip.
  - now rewrite Z.add_0_l.
  - now rewrite Z.add_0_l.
Qed.

(** X2. In an Exif segment whose header is readable, the first
    directory entry carrying the orientation tag decides: when the [k]
    entries before it are readable and carry other tags, the value read
    eight bytes into entry [k], in the byte order the header declares,
    is returned; entries after it are not looked at. [offset] is the
    offset just after the APP1 marker. *)
Theorem readExifOrientation_first_entry view offset byteOrder ifdOffset tagCount
    (k : nat) (v : Z) :
  let tiffOffset := offset + 2 + 6 in
  let littleEndian := byteOrder =? 0x4949 in
  getUint32 view (offset + 2) false = Normal 0x45786966 ->
  getUint16 view tiffOffset false = Normal byteOrder ->
  getUint32 view (tiffOffset + 4) littleEndian = Normal ifdOffset ->
  getUint16 view (tiffOffset + ifdOffset) littleEndian = Normal tagCount ->
  Z.of_nat k < tagCount ->
  (forall j, (j < k)%nat ->
     exists tag,
       getUint16 view (entryOffset tiffOffset ifdOffset (Z.of_nat j))
         littleEndian = Normal tag /\
       tag <> 0x0112) ->
  getUint16 view (entryOffset tiffOffset ifdOffset (Z.of_nat k)) littleEndian
    = Normal 0x0112 ->
  getUint16 view (entryOffset tiffOffset ifdOffset (Z.of_nat k) + 8) littleEndian
    = Normal v ->
  readExifOrientation view offset = Normal v.
Proof.
  exact (readExifOrientation_entry_value view offset byteOrder ifdOffset
           tagCount k v).
Qed.

(** A big-endian file whose directory has two entries: the camera make
    (tag 0x010F) and then the orientation, 3. *)
Definition twoEntryBuffer : list byte :=
  [Byte.xff; Byte.xd8; Byte.xff; Byte.xe1; Byte.x00; Byte.x2c;
   Byte.x45; Byte.x78; Byte.x69; Byte.x66; Byte.x00; Byte.x00;
   Byte.x4d; Byte.x4d; Byte.x00; Byte.x2a; Byte.x00; Byte.x00; Byte.x00; Byte.x08;
   Byte.x00; Byte.x02;
   Byte.x01; Byte.x0f; Byte.x00; Byte.x02; Byte.x00; Byte.x00; Byte.x00; Byte.x01;
   Byte.x41; Byte.x00; Byte.x00; Byte.x00;
   Byte.x01; Byte.x12; Byte.x00; Byte.x03; Byte.x00; Byte.x00; Byte.x00; Byte.x01;
   Byte.x00; Byte.x03; Byte.x00; Byte.x00].

Lemma readExifOrientation_first_entry_witness :
  readExifOrientation twoEntryBuffer 4 = Normal 3.
Proof.
  apply (readExifOrientation_first_entry twoEntryBuffer 4 0x4D4D 8 2 1 3);
    try reflexivity.
  intros j Hj. exists 0x010F. destruct j as [|j]; [|lia].
  split; [reflexivity | discriminate].
Defined.

(** *** Buffers with an orientation entry, in either byte order *)

(** The file of [exifBuffer] in the byte order asked for: with
    [littleEndian] the header says "II" and every field of the TIFF
    part is stored low byte first. *)
Definition exifBufferOrder (littleEndian : bool) (hi lo : byte) : list byte :=
  if littleEndian then
    [Byte.xff; Byte.xd8; Byte.xff; Byte.xe1; Byte.x00; Byte.x20;
     Byte.x45; Byte.x78; Byte.x69; Byte.x66; Byte.x00; Byte.x00;
     Byte.x49; Byte.x49; Byte.x2a; Byte.x00; Byte.x08; Byte.x00; Byte.x00; Byte.x00;
     Byte.x01; Byte.x00;
     Byte.x12; Byte.x01; Byte.x03; Byte.x00; Byte.x01; Byte.x00; Byte.x00; Byte.x00;
     lo; hi; Byte.x00; Byte.x00]
  else exifBuffer hi lo.

(** On the 34-byte file of [exifBufferOrder] the decoder reads back
    the 16-bit number with high byte [hi] and low byte [lo], in either
    byte order and whatever bytes follow. *)
Lemma getImageOrientation_exifBufferOrder
    (littleEndian : bool) (hi lo : byte) (rest : list byte) :
  getImageOrientation (exifBufferOrder littleEndian hi lo ++ rest)
  = Normal (byteValue hi * 256 + byteValue lo).
Proof.
  set (buffer := exifBufferOrder littleEndian hi lo).
  assert (Hlength : byteLength buffer = 34) by (unfold buffer; now destruct littleEndian).
  assert (Hread : forall size k le,
            0 <= k -> k + Z.of_nat size <= 34 ->
            getUint size (buffer ++ rest) k le = getUint size buffer k le).
  { intros size k le Hk Hfit. apply getUint_app_l; lia. }
  unfold getImageOrientation, getUint16. cbv zeta.
  rewrite Hread by (cbn; lia).
  replace (getUint 2 buffer 0 false) with (Normal (A := Z) 65496)
    by (unfold buffer; now destruct littleEndian).
  cbn [mbind completion_bind]. change (negb (65496 =? 65496)) with false. cbv iota.
  rewrite scan_eq.
  replace (2 <? byteLength (buffer ++ rest)) with true
    by (symmetry; apply Z.ltb_lt; unfold byteLength in *; rewrite length_app; lia).
  assert (Hmarker : getUint 2 (buffer ++ rest) 2 false = Normal 65505).
  { rewrite Hread by (cbn; lia). unfold buffer. now destruct littleEndian. }
  assert (Hexif : readExifOrientation (buffer ++ rest) (2 + 2)
                  = Normal (byteValue hi * 256 + byteValue lo)).
  { apply (readExifOrientation_entry_value (buffer ++ rest) (2 + 2)
             (if littleEndian then 0x4949 else 0x4D4D) 8 1 0);
      try lia; try (intros j Hj; lia);
      unfold entryOffset, getUint16, getUint32;
      (rewrite Hread by (cbn; lia));
      unfold buffer; destruct littleEndian; reflexivity. }
  assert (Hbody : scanBody (buffer ++ rest) 2
                  = Normal (Return (byteValue hi * 256 + byteValue lo))).
  { unfold scanBody, getUint16. cbv zeta.
    rewrite Hmarker. cbn [mbind completion_bind].
    change (65505 =? 65505) with true. cbv iota.
    rewrite Hexif. reflexivity. }
  rewrite Hbody. reflexivity.
Qed.

(** A read that succeeds lies within the buffer. *)
Lemma getUint_in_bounds (size : nat) view byteOffset littleEndian v :
  getUint size view byteOffset littleEndian = Normal v ->
  0 <= byteOffset /\ byteOffset + Z.of_nat size <= byteLength view.
Proof.
  unfold getUint. case_match eqn:Hb; [congruence|]. intros _.
  apply orb_false_iff in Hb as [H0 Hlen]. apply Z.ltb_ge in H0, Hlen. lia.
Qed.

(** A little-endian file whose directory does not follow the TIFF
    header at once: the header gives the offset 10, two bytes of padding
    precede the directory, and its one entry is the orientation, 6. *)
Definition paddedExifBuffer : list byte :=
  [Byte.xff; Byte.xd8; Byte.xff; Byte.xe1; Byte.x00; Byte.x22;
   Byte.x45; Byte.x78; Byte.x69; Byte.x66; Byte.x00; Byte.x00;
   Byte.x49; Byte.x49; Byte.x2a; Byte.x00; Byte.x0a; Byte.x00; Byte.x00; Byte.x00;
   Byte.x00; Byte.x00;
   Byte.x01; Byte.x00;
   Byte.x12; Byte.x01; Byte.x03; Byte.x00; Byte.x01; Byte.x00; Byte.x00; Byte.x00;
   Byte.x06; Byte.x00; Byte.x00; Byte.x00].

(** X3. For every buffer that starts with the start-of-image marker
    followed at once by an APP1 segment with the Exif signature, the
    decoder returns the value of the first directory entry tagged
    0x0112: whatever the byte order the TIFF header declares, wherever
    the header places the directory ([ifdOffset]), however many entries
    with other tags precede that entry ([k]), and whatever else the
    buffer holds. The TIFF header is at offset 12; entry [j] is at
    offset [12 + ifdOffset + 2 + 12 * j], its value eight bytes on. *)
Theorem getImageOrientation_reads_entry (buffer : list byte)
    (byteOrder ifdOffset tagCount : Z) (k : nat) (v : Z) :
  let littleEndian := byteOrder =? 0x4949 in
  getUint16 buffer 0 false = Normal 0xFFD8 ->
  getUint16 buffer 2 false = Normal 0xFFE1 ->
  getUint32 buffer 6 false = Normal 0x45786966 ->
  getUint16 buffer 12 false = Normal byteOrder ->
  getUint32 buffer 16 littleEndian = Normal ifdOffset ->
  getUint16 buffer (12 + ifdOffset) littleEndian = Normal tagCount ->
  Z.of_nat k < tagCount ->
  (forall j, (j < k)%nat ->
     exists tag,
       getUint16 buffer (12 + ifdOffset + 2 + Z.of_nat j * 12) littleEndian
       = Normal tag /\
       tag <> 0x0112) ->
  getUint16 buffer (12 + ifdOffset + 2 + Z.of_nat k * 12) littleEndian
  = Normal 0x0112 ->
  getUint16 buffer (12 + ifdOffset + 2 + Z.of_nat k * 12 + 8) littleEndian
  = Normal v ->
  getImageOrientation buffer = Normal v.
Proof.
  intros littleEndian Hsoi Hmarker Hsig Horder Hifd Hcount Hk Hskip Htag Hv.
  assert (Hexif : readExifOrientation buffer (2 + 2) = Normal v).
  { exact (readExifOrientation_entry_value buffer 4 byteOrder ifdOffset
             tagCount k v Hsig Horder Hifd Hcount Hk Hskip Htag Hv). }
  pose proof (getUint_in_bounds _ _ _ _ _ Hmarker) as [_ Hlength].
  unfold getImageOrientation. cbv zeta.
  rewrite Hsoi. cbn [mbind completion_bind].
  change (negb (65496 =? 65496)) with false. cbv iota.
  rewrite scan_eq.
  replace (2 <? byteLength buffer) with true
    by (symmetry; apply Z.ltb_lt; cbn in Hlength; lia).
  unfold scanBody. cbv zeta.
  rewrite Hmarker. cbn [mbind completion_bind].
  change (65505 =? 65505) with true. cbv iota.
  rewrite Hexif. reflexivity.
Qed.

Lemma getImageOrientation_reads_entry_witness :
  getImageOrientation paddedExifBuffer = Normal 6.
Proof.
  apply (getImageOrientation_reads_entry paddedExifBuffer 0x4949 10 1 0 6);
    try reflexivity.
  intros j Hj. lia.
Defined.

(** X4. A value other than the default is only ever returned for a
    buffer that starts with the start-of-image marker and holds, at some
    offset, an APP1 marker followed after its two length bytes by the
    Exif signature. *)
Theorem getImageOrientation_non_default (buffer : list byte) (v : Z) :
  getImageOrientation buffer = Normal v -> v <> 1 ->
  getUint16 buffer 0 false = Normal 0xFFD8 /\
  exists offset,
    getUint16 buffer offset false = Normal 0xFFE1 /\
    getUint32 buffer (offset + 4) false = Normal 0x45786966.
Proof.
  intros Hv Hne. unfold getImageOrientation in Hv. cbv zeta in Hv.
  destruct (getUint16 buffer 0 false) as [marker|e] eqn:Hsoi; [|discriminate].
  cbn [mbind completion_bind] in Hv.
  destruct (marker =? 65496) eqn:Hmarker; cbn [negb] in Hv; [|congruence].
  apply Z.eqb_eq in Hmarker. subst marker. split; [reflexivity|].
  revert v Hv Hne.
  apply (scan_cases
           (fun c => forall v, c = Normal v -> v <> 1 ->
              exists offset,
                getUint16 buffer offset false = Normal 65505 /\
                getUint32 buffer (offset + 4) false = Normal 1165519206)).
  - intros v [= <-] Hne. contradiction.
  - intros offset e _ v [=].
  - intros offset v' Hbody v [= <-] Hne.
    unfold scanBody in Hbody. cbv zeta in Hbody.
    destruct (getUint16 buffer offset false) as [marker|e] eqn:Hmarker;
      [|discriminate].
    cbn [mbind completion_bind] in Hbody.
    destruct (marker =? 65505) eqn:Happ1.
    + apply Z.eqb_eq in Happ1. subst marker. exists offset. split; [exact Hmarker|].
      unfold readExifOrientation in Hbody. cbv zeta in Hbody.
      replace (offset + 2 + 2) with (offset + 4) in Hbody by ring.
      destruct (getUint32 buffer (offset + 4) false) as [exifSig|e] eqn:Hsig;
        [|discriminate].
      cbn [mbind completion_bind] in Hbody.
      destruct (exifSig =? 1165519206) eqn:Hexif.
      * apply Z.eqb_eq in Hexif. now subst exifSig.
      * cbn in Hbody. congruence.
    + destruct (negb _); [congruence|].
      destruct (getUint16 buffer (offset + 2) false); cbn in Hbody; discriminate.
Qed.

Lemma getImageOrientation_non_default_witness :
  getUint16 twoEntryBuffer 0 false = Normal 0xFFD8 /\
  exists offset,
    getUint16 twoEntryBuffer offset false = Normal 0xFFE1 /\
    getUint32 twoEntryBuffer (offset + 4) false = Normal 0x45786966.
Proof.
  apply (getImageOrientation_non_default twoEntryBuffer 3);
    [reflexivity | discriminate].
Defined.

(** ** Further properties of the canvas and of [processImage] *)

Lemma applyOrientation_other (canvas : Canvas) (hasContext : bool) (orientation : Z) :
  orientation < 2 \/ 8 < orientation ->
  applyOrientation canvas hasContext orientation = Normal canvas.
Proof.
  intros Hout. destruct orientation as [|p|p]; try reflexivity.
  do 4 (destruct p as [p|p|]; try reflexivity; try lia).
Qed.

(** X5. [applyOrientation] depends on the code only through 2..8: any
    other code leaves the canvas as it is, and needs no context. With a
    context it never throws, and the canvas it yields has the width and
    height of the given one exchanged for the codes 5 to 8 and kept for
    all others; without one (null from [getContext]) it throws for every
    code from 2 to 8. *)
Theorem applyOrientation_dimensions (canvas : Canvas) (orientation : Z) :
  (exists canvas',
     applyOrientation canvas true orientation = Normal canvas' /\
     (width canvas', height canvas')
     = if (5 <=? orientation) && (orientation <=? 8)
       then (height canvas, width canvas)
       else (width canvas, height canvas)) /\
  applyOrientation canvas false orientation
  = (if (2 <=? orientation) && (orientation <=? 8)
     then Throw (nullContext "transform")
     else Normal canvas).
Proof.
  destruct (decide (2 <= orientation <= 8)) as [Hin|Hout].
  - assert (Hcases : orientation = 2 \/ orientation = 3 \/ orientation = 4 \/
                     orientation = 5 \/ orientation = 6 \/ orientation = 7 \/
                     orientation = 8) by lia.
    destruct Hcases as [->|[->|[->|[->|[->|[->| ->]]]]]];
      (split; [eexists; split; reflexivity | reflexivity]).
  - rewrite !applyOrientation_other by lia.
    replace ((2 <=? orientation) && (orientation <=? 8)) with false
      by (symmetry; apply andb_false_iff;
          destruct (Z.leb_spec 2 orientation), (Z.leb_spec orientation 8);
          auto; lia).
    replace ((5 <=? orientation) && (orientation <=? 8)) with false
      by (symmetry; apply andb_false_iff;
          destruct (Z.leb_spec 5 orientation), (Z.leb_spec orientation 8);
          auto; lia).
    split; [eexists; split; reflexivity | reflexivity].
Qed.

(** X6. A success Result describes the job: the bitmap was decoded, the
    original size is the byte length of the input and the original
    dimensions are the bitmap's; the encoder was asked for the MIME type
    of the format (JPEG for a format that is neither "png" nor "webp"),
    with the quality of the options except for "png", where none is
    passed; the compressed bytes are what it produced and the
    compressed size is their length; and there is no error message. *)
Theorem processImage_success_fields (P : Platform) (data : ProcessImageMessage) :
  success (processImage P data) = true ->
  exists bitmap canvas bytes,
    createImageBitmap P (imageData data) = Normal bitmap /\
    convertToBlob P canvas
      (if String.eqb (format (options data)) "png" then "image/png"
       else if String.eqb (format (options data)) "webp" then "image/webp"
       else "image/jpeg")
      (if String.eqb (format (options data)) "png" then None
       else Some (quality (options data)))
    = Normal bytes /\
    originalSize (processImage P data) = byteLength (imageData data) /\
    originalDimensions (processImage P data)
      = {| dim_width := bitmap_width bitmap; dim_height := bitmap_height bitmap |} /\
    compressedData (processImage P data) = Some bytes /\
    compressedSize (processImage P data) = byteLength bytes /\
    error (processImage P data) = None.
Proof.
  unfold processImage, processImageBody. cbv zeta.
  destruct (createImageBitmap P (imageData data)) as [bitmap|e] eqn:Hbitmap;
    cbn [mbind completion_bind]; [|discriminate].
  destruct (getImageOrientation (imageData data)) as [orientation|e];
    cbn [mbind completion_bind]; [|discriminate].
  destruct (scaledDimensions _ _ _ _) as [w h].
  destruct (displayDimensions orientation w h) as [displayWidth displayHeight].
  destruct (newOffscreenCanvas P displayWidth displayHeight);
    cbn [mbind completion_bind]; [|discriminate].
  destruct (orientedCanvas _ _ _ _) as [canvas|e];
    cbn [mbind completion_bind]; [|discriminate].
  destruct (if getContext2d P then _ else _);
    cbn [mbind completion_bind]; [|discriminate].
  destruct (convertToBlob P canvas _ _) as [bytes|e] eqn:Hblob;
    cbn [mbind completion_bind]; [|discriminate].
  intros _. exists bitmap, canvas, bytes.
  split; [reflexivity|]. split; [exact Hblob|]. cbn. auto.
Qed.

Lemma processImage_success_fields_witness :
  compressedSize (processImage (decodingPlatform 4000 2000)
                    (message "a" (exifBuffer Byte.x00 Byte.x06))) = 1.
Proof.
  destruct (processImage_success_fields (decodingPlatform 4000 2000)
              (message "a" (exifBuffer Byte.x00 Byte.x06)) eq_refl)
    as (bitmap & canvas & bytes & _ & Hblob & _ & _ & _ & Hsize & _).
  rewrite Hsize. injection Hblob as <-. reflexivity.
Defined.

End Worker.

(** * The coordinator: [ImageCompressionTool] *)

Module Main.

(** ** Data *)

Record ImageFile : Type := {
  id : string;
  (** [file.name], the only part of the [File] that is used *)
  name : string;
  originalData : list byte;
  compressedData : option (list byte);
  originalSize : Z;
  compressedSize : option Z;
  originalDimensions : option Worker.Dimensions;
  compressedDimensions : option Worker.Dimensions;
  processed : bool;
  selected : bool
}.

(** A JavaScript [Map] with string keys: the entries in insertion order,
    each key once. *)
Fixpoint Map_get {V : Type} (m : list (string * V)) (key : string) : option V :=
  match m with
  | [] => None
  | (k, v) :: m' => if String.eqb k key then Some v else Map_get m' key
  end.

(** [set] replaces the value of a key that is present, in place, and
    appends a new key. *)
Fixpoint Map_set {V : Type} (m : list (string * V)) (key : string) (value : V)
    : list (string * V) :=
  match m with
  | [] => [(key, value)]
  | (k, v) :: m' =>
      if String.eqb k key then (k, value) :: m'
      else (k, v) :: Map_set m' key value
  end.

(** A callback waiting in the timer queue ([setTimeout(..., 10)]). *)
Inductive Timer : Type :=
  (** the [processNext] closure of [startCompression] *)
  | processNextTimer
  (** [() => this.sendImageToWorker(worker, nextFileId, nextImageFile)];
      the file is [None] when [this.files.get(nextFileId)] was
      undefined. The closure only reads fields of the file that are
      never assigned after its creation. *)
  | sendTimer (worker : nat) (fileId : string) (imageFile : option ImageFile).

(** The fields of the class that take part in dispatching, the two
    controls it switches, the options read from the form, and the
    environment of the page: the pending timers and, per worker (a
    worker is its index in the pool), the messages posted to it that it
    has not answered yet. *)
Record State : Type := mkState {
  files : list (string * ImageFile);
  workers : list nat;
  (** true = busy, false = idle *)
  workerStatus : gmap nat bool;
  maxWorkers : nat;
  processingQueue : list string;
  processing : bool;
  compressBtn_disabled : bool;
  progressSection_shown : bool;
  formOptions : Worker.ImageProcessingOptions;
  timers : list Timer;
  posted : list (nat * Worker.ProcessImageMessage)
}.

Definition set_files (v : list (string * ImageFile)) (s : State) : State :=
  mkState v (workers s) (workerStatus s) (maxWorkers s) (processingQueue s)
    (processing s) (compressBtn_disabled s) (progressSection_shown s)
    (formOptions s) (timers s) (posted s).

Definition set_workerStatus (v : gmap nat bool) (s : State) : State :=
  mkState (files s) (workers s) v (maxWorkers s) (processingQueue s)
    (processing s) (compressBtn_disabled s) (progressSection_shown s)
    (formOptions s) (timers s) (posted s).

Definition set_processingQueue (v : list string) (s : State) : State :=
  mkState (files s) (workers s) (workerStatus s) (maxWorkers s) v
    (processing s) (compressBtn_disabled s) (progressSection_shown s)
    (formOptions s) (timers s) (posted s).

(** [processing], the disabled flag of the compress button and the
    visibility of the progress section are always assigned together. *)
Definition set_processing (v disabled shown : bool) (s : State) : State :=
  mkState (files s) (workers s) (workerStatus s) (maxWorkers s)
    (processingQueue s) v disabled shown
    (formOptions s) (timers s) (posted s).

Definition set_timers (v : list Timer) (s : State) : State :=
  mkState (files s) (workers s) (workerStatus s) (maxWorkers s)
    (processingQueue s) (processing s) (compressBtn_disabled s)
    (progressSection_shown s) (formOptions s) v (posted s).

Definition set_posted (v : list (nat * Worker.ProcessImageMessage)) (s : State)
    : State :=
  mkState (files s) (workers s) (workerStatus s) (maxWorkers s)
    (processingQueue s) (processing s) (compressBtn_disabled s)
    (progressSection_shown s) (formOptions s) (timers s) v.

(** ** Construction *)

(** The state after the constructor: [initializeWorkers] has created
    [maxWorkers] workers, all idle. *)
Definition initial (maxWorkers : nat) (formOptions : Worker.ImageProcessingOptions)
    : State :=
  {| files := [];
     workers := seq 0 maxWorkers;
     workerStatus := list_to_map ((fun w => (w, false)) <$> seq 0 maxWorkers);
     maxWorkers := maxWorkers;
     processingQueue := [];
     processing := false;
     compressBtn_disabled := false;
     progressSection_shown := false;
     formOptions := formOptions;
     timers := [];
     posted := [] |}.

(** One iteration of the loop of [addFiles], for a file that needs no
    conversion. *)
Definition addFile (id name : string) (originalData : list byte) (s : State)
    : State :=
  set_files
    (Map_set (files s) id
       {| id := id; name := name; originalData := originalData;
          compressedData := None;
          originalSize := Worker.byteLength originalData;
          compressedSize := None;
          originalDimensions := None; compressedDimensions := None;
          processed := false; selected := true |})
    s.

(** ** Dispatch *)

(** [sendImageToWorker]: posts the job to the worker. With an undefined
    file, reading [imageFile.originalData] throws and nothing is
    posted. *)
Definition sendImageToWorker (worker : nat) (fileId : string)
    (imageFile : option ImageFile) (s : State) : State * option thrown :=
  match imageFile with
  | Some imageFile =>
      (set_posted
         (posted s ++
          [(worker,
            {| Worker.msg_id := fileId;
               Worker.imageData := originalData imageFile;
               Worker.msg_filename := name imageFile;
               Worker.options := formOptions s |})])
         s,
       None)
  | None =>
      (s, Some (ErrorObject "TypeError"
                  "Cannot read properties of undefined (reading 'originalData')"))
  end.

(** [this.workerStatus.get(w)] read as a condition: an absent key is
    falsy. *)
Definition isBusy (s : State) (w : nat) : bool :=
  default false (workerStatus s !! w).

(** The [processNext] closure of [startCompression]. The second
    component is what the call threw, if it did. *)
Definition processNext (s : State) : State * option thrown :=
  match processingQueue s with
  | [] => (s, None)
  | fileId :: queue =>
      match List.find (fun w => negb (isBusy s w)) (workers s) with
      | None => (s, None)
      | Some availableWorker =>
          let s := set_processingQueue queue s in
          let imageFile := Map_get (files s) fileId in
          let s := set_workerStatus (<[availableWorker := true]> (workerStatus s)) s in
          match sendImageToWorker availableWorker fileId imageFile s with
          | (s, Some e) => (s, Some e)
          | (s, None) => (set_timers (timers s ++ [processNextTimer]) s, None)
          end
      end
  end.

(** [for (let i = 0; i < n; i++) processNext()], left when a call
    throws. *)
Fixpoint processNextTimes (n : nat) (s : State) : State :=
  match n with
  | O => s
  | S n' =>
      match processNext s with
      | (s, Some _) => s
      | (s, None) => processNextTimes n' s
      end
  end.

Definition startCompression (s : State) : State :=
  if (length (files s) =? 0)%nat || processing s then s
  else
    let s := set_processing true true true s in
    let s := set_processingQueue (fst <$> files s) s in
    let total := length (processingQueue s) in
    processNextTimes (Nat.min (maxWorkers s) total) s.

Definition completedCount (s : State) : nat :=
  length (List.filter (fun f => processed f) (snd <$> files s)).

(** The first half of [handleWorkerMessage] once the file is found: a
    successful Result with its bytes is stored in the file, which
    becomes [processed]; any other Result is only reported to the
    user. *)
Definition recordResult (result : Worker.ProcessImageResult)
    (imageFile : ImageFile) (s : State) : State :=
  match Worker.success result, Worker.compressedData result with
  | true, Some data =>
      set_files
        (Map_set (files s) (Worker.id result)
           {| id := id imageFile; name := name imageFile;
              originalData := originalData imageFile;
              compressedData := Some data;
              originalSize := originalSize imageFile;
              compressedSize := Some (Worker.compressedSize result);
              originalDimensions := Some (Worker.originalDimensions result);
              compressedDimensions := Some (Worker.compressedDimensions result);
              processed := true;
              selected := selected imageFile |})
        s
  | _, _ => s
  end.

(** The second half: the batch is finished when every file is
    processed; otherwise the next queued file, if any, goes to the
    worker that has just answered. *)
Definition finishOrContinue (worker : nat) (s : State) : State :=
  let completedCount := completedCount s in
  let total := length (files s) in
  if (completedCount =? total)%nat then
    set_processing false false false s
  else
    match processingQueue s with
    | nextFileId :: queue =>
        let s := set_processingQueue queue s in
        let nextImageFile := Map_get (files s) nextFileId in
        let s := set_workerStatus (<[worker := true]> (workerStatus s)) s in
        set_timers (timers s ++ [sendTimer worker nextFileId nextImageFile]) s
    | [] => s
    end.

(** [handleWorkerMessage], for a message event of [worker] carrying
    [result]. *)
Definition handleWorkerMessage (worker : nat) (result : Worker.ProcessImageResult)
    (s : State) : State :=
  let imageFile := Map_get (files s) (Worker.id result) in
  let s := set_workerStatus (<[worker := false]> (workerStatus s)) s in
  match imageFile with
  | None => s
  | Some imageFile => finishOrContinue worker (recordResult result imageFile s)
  end.

Definition clearAll (s : State) : State :=
  let s := set_files [] s in
  let s := set_processingQueue [] s in
  set_processing false false false s.

(** ** Selection and the download buttons *)

(** [toggleSelection]: the [selected] flag of the file with this id is
    assigned, in place; an unknown id is ignored. The buttons are then
    set from the table by [updateDownloadButtons] below. *)
Definition toggleSelection (fileId : string) (selected' : bool) (s : State)
    : State :=
  match Map_get (files s) fileId with
  | Some imageFile =>
      set_files
        (Map_set (files s) fileId
           {| id := id imageFile; name := name imageFile;
              originalData := originalData imageFile;
              compressedData := compressedData imageFile;
              originalSize := originalSize imageFile;
              compressedSize := compressedSize imageFile;
              originalDimensions := originalDimensions imageFile;
              compressedDimensions := compressedDimensions imageFile;
              processed := processed imageFile;
              selected := selected' |})
        s
  | None => s
  end.

(** [updateDownloadButtons]: whether the "download all" and the
    "download selected" buttons are displayed. *)
Definition updateDownloadButtons (s : State) : bool * bool :=
  let processedCount :=
    length (List.filter (fun f => processed f) (files s).*2) in
  let selectedCount :=
    length (List.filter (fun f => selected f && processed f) (files s).*2) in
  ((0 <? processedCount)%nat,
   (0 <? selectedCount)%nat && (selectedCount <? processedCount)%nat).

(** ** Download names *)

Definition slash : Ascii.ascii := Eval cbv in Ascii.ascii_of_nat 47.
Definition dot : Ascii.ascii := Eval cbv in Ascii.ascii_of_nat 46.

(** Whether every character up to the end of the string is other than
    [/] and [.]: the part [[^/.]*$] of the pattern. *)
Fixpoint extensionChars (s : string) : bool :=
  match s with
  | EmptyString => true
  | String c rest =>
      negb (Ascii.eqb c slash) && negb (Ascii.eqb c dot) && extensionChars rest
  end.

(** Whether [\.[^/.]+$] matches at the start of the string. *)
Definition extensionAt (s : string) : bool :=
  match s with
  | String c (String c' rest) =>
      Ascii.eqb c dot && extensionChars (String c' rest)
  | _ => false
  end.

(** [filename.replace(/\.[^/.]+$/, '')]: the leftmost match, which
    reaches the end of the name, is removed. A name is the sequence of
    its characters; characters outside ASCII are neither [/] nor [.],
    in the bytes of their UTF-8 form as in their UTF-16 units. *)
Fixpoint getFilenameWithoutExtension (filename : string) : string :=
  if extensionAt filename then EmptyString
  else
    match filename with
    | EmptyString => EmptyString
    | String c rest => String c (getFilenameWithoutExtension rest)
    end.

(** The extension of the selected output format, as [downloadSingle],
    [downloadAll] and [downloadSelected] compute it. *)
Definition downloadExtension (format : string) : string :=
  if String.eqb format "png" then "png"
  else if String.eqb format "webp" then "webp"
  else "jpg".

(** The name a file is downloaded or archived under. *)
Definition downloadFilename (format filename : string) : string :=
  getFilenameWithoutExtension filename +:+ "_compressed." +:+ downloadExtension format.

(** ** The event loop *)

(** Running a timer callback; what it throws is reported to the console
    and otherwise lost. *)
Definition fire (t : Timer) (s : State) : State :=
  match t with
  | processNextTimer => fst (processNext s)
  | sendTimer worker fileId imageFile =>
      fst (sendImageToWorker worker fileId imageFile s)
  end.

(** One turn of the page's event loop: a file is added, a button is
    clicked, a pending timer fires, or a worker answers one of the
    messages posted to it with the Result [processImage] computes for it
    in some browser. Timers and answers come in any order. These are
    the events of dispatch and of the arrival of Results; the [error]
    event of a worker is added to them in [event] below. *)
Inductive step : State -> State -> Prop :=
  | step_addFile s id name originalData :
      step s (addFile id name originalData s)
  | step_startCompression s :
      step s (startCompression s)
  | step_clearAll s :
      step s (clearAll s)
  | step_timer s before t after :
      timers s = before ++ t :: after ->
      step s (fire t (set_timers (before ++ after) s))
  | step_result s before worker data after P :
      posted s = before ++ (worker, data) :: after ->
      step s (handleWorkerMessage worker (Worker.processImage P data)
                (set_posted (before ++ after) s)).

Definition reachable (s0 s : State) : Prop := rtc step s0 s.

(** The [onerror] handler [initializeWorkers] installs on each worker:
    the error is reported and the worker is marked idle. Nothing else
    changes; in particular a message posted to the worker stays
    unanswered, and may or may not be answered later. *)
Definition handleWorkerError (worker : nat) (s : State) : State :=
  set_workerStatus (<[worker := false]> (workerStatus s)) s.

(** One turn of the event loop when workers may also raise [error]
    events. *)
Inductive event : State -> State -> Prop :=
  | event_step s s' :
      step s s' -> event s s'
  | event_workerError s worker :
      worker ∈ workers s -> event s (handleWorkerError worker s).

Definition reachableWithErrors (s0 s : State) : Prop := rtc event s0 s.

(** One turn of the event loop taken while a batch is running. *)
Definition whileProcessing (s s' : State) : Prop :=
  processing s = true /\ event s s'.

(** The pending work: the ids in the queue, those a pending send timer
    will post, and those posted to a worker and not answered. *)
Definition pending (fileId : string) (s : State) : Prop :=
  fileId ∈ processingQueue s \/
  (exists worker imageFile, sendTimer worker fileId imageFile ∈ timers s) \/
  (exists worker data,
     (worker, data) ∈ posted s /\ Worker.msg_id data = fileId).

(** ** What is measured *)

Definition busyCount (s : State) : nat :=
  size (filter (fun kv : nat * bool => kv.2 = true) (workerStatus s)).

(** The ids of the jobs a worker slot holds: the messages posted to it
    and not answered, and the jobs a pending [sendTimer] will post to
    it. *)
Definition jobsOf (w : nat) (messages : list (nat * Worker.ProcessImageMessage))
    : list string :=
  omap (fun p : nat * Worker.ProcessImageMessage =>
          if decide (p.1 = w) then Some (Worker.msg_id p.2) else None)
       messages.

Definition sendsOf (w : nat) (pending : list Timer) : list string :=
  omap (fun t =>
          match t with
          | sendTimer w' fileId _ => if decide (w' = w) then Some fileId else None
          | processNextTimer => None
          end)
       pending.

Definition assignedTo (w : nat) (s : State) : list string :=
  jobsOf w (posted s) ++ sendsOf w (timers s).

Arguments jobsOf : simpl never.
Arguments sendsOf : simpl never.

(** ** The slot invariant *)

(** The pool is the one created by the constructor, the status map has
    no other keys, and every slot holds at most one job and is marked
    busy while it holds one. *)
Definition slotInvariant (s : State) : Prop :=
  workers s = seq 0 (maxWorkers s) /\
  (forall w, is_Some (workerStatus s !! w) -> w ∈ workers s) /\
  forall w,
    (length (assignedTo w s) <= 1)%nat /\
    ((0 < length (assignedTo w s))%nat -> workerStatus s !! w = Some true).

(** ** Concrete runs *)

Definition jpegBytes : list byte := Worker.exifBuffer Byte.x00 Byte.x01.

(** Three files added, then the compress button clicked, with a pool of
    two workers. *)
Definition threeFilesStarted : State :=
  startCompression
    (addFile "c" "c.jpg" jpegBytes
       (addFile "b" "b.jpg" jpegBytes
          (addFile "a" "a.jpg" jpegBytes (initial 2 Worker.jpegOptions)))).

(** One file, and the worker answers with a failure Result. *)
Definition oneFileStarted : State :=
  startCompression (addFile "a" "a.jpg" jpegBytes (initial 2 Worker.jpegOptions)).

Definition jobA : Worker.ProcessImageMessage :=
  {| Worker.msg_id := "a"; Worker.imageData := jpegBytes;
     Worker.msg_filename := "a.jpg"; Worker.options := Worker.jpegOptions |}.

(** The state after the worker's answer, the Result of [processImage]
    in the given browser, and after the pending [processNext] timer. *)
Definition oneFileAnswered (P : Worker.Platform) : State :=
  handleWorkerMessage 0 (Worker.processImage P jobA)
    (set_posted [] oneFileStarted).

Definition oneFileFailed : State :=
  fire processNextTimer
    (set_timers [] (oneFileAnswered Worker.undecodablePlatform)).

Definition oneFileSucceeded : State :=
  fire processNextTimer
    (set_timers [] (oneFileAnswered (Worker.decodingPlatform 800 600))).

(** A second file is added while the first is being processed, and the
    compress button is clicked again. *)
Definition secondFileAdded : State :=
  addFile "b" "b.jpg" jpegBytes oneFileStarted.

(** ** Properties of the dispatcher *)


Lemma jobsOf_app w l1 l2 : jobsOf w (l1 ++ l2) = jobsOf w l1 ++ jobsOf w l2.
Proof. apply omap_app. Qed.

Lemma sendsOf_app w l1 l2 : sendsOf w (l1 ++ l2) = sendsOf w l1 ++ sendsOf w l2.
Proof. apply omap_app. Qed.

Lemma length_jobsOf_cons w w' data l :
  length (jobsOf w ((w', data) :: l))
  = ((if decide (w' = w) then 1 else 0) + length (jobsOf w l))%nat.
Proof. unfold jobsOf. csimpl. case_decide; reflexivity. Qed.

Lemma length_sendsOf_cons w t l :
  length (sendsOf w (t :: l))
  = ((match t with
      | sendTimer w' _ _ => if decide (w' = w) then 1 else 0
      | processNextTimer => 0
      end) + length (sendsOf w l))%nat.
Proof.
  unfold sendsOf. csimpl. destruct t; [reflexivity|]. case_decide; reflexivity.
Qed.

Lemma jobsOf_nil w : jobsOf w [] = [].
Proof. reflexivity. Qed.

Lemma sendsOf_nil w : sendsOf w [] = [].
Proof. reflexivity. Qed.

(** Rewrites the number of jobs assigned to a slot into a sum over the
    pieces of the posted and timer lists. *)
#[local] Ltac count_jobs :=
  unfold assignedTo in *; cbn [posted timers set_posted set_timers
    set_workerStatus set_files set_processingQueue set_processing] in *;
  repeat rewrite ?jobsOf_app, ?sendsOf_app, ?length_app, ?length_jobsOf_cons,
    ?length_sendsOf_cons, ?jobsOf_nil, ?sendsOf_nil in *;
  cbn [length] in *.

Lemma slotInvariant_initial n formOptions : slotInvariant (initial n formOptions).
Proof.
  split; [reflexivity|]. split.
  - intros w [b Hb]. cbn in *.
    apply elem_of_list_to_map_2 in Hb.
    apply list_elem_of_fmap in Hb as (w' & [= -> ->] & Hin). exact Hin.
  - intros w. unfold assignedTo, jobsOf, sendsOf. cbn. split; lia.
Qed.

Lemma find_available s w :
  List.find (fun w => negb (isBusy s w)) (workers s) = Some w ->
  w ∈ workers s /\ workerStatus s !! w <> Some true.
Proof.
  intros H. apply List.find_some in H as [Hin Hidle].
  split; [now apply list_elem_of_In|].
  unfold isBusy in Hidle. destruct (workerStatus s !! w) as [[]|]; cbn in *; congruence.
Qed.

Lemma slotInvariant_processNext s :
  slotInvariant s -> slotInvariant (processNext s).1.
Proof.
  intros Hs. pose proof Hs as (Hpool & Hkeys & Hslots). unfold processNext.
  destruct (processingQueue s) as [|fileId queue]; [exact Hs|].
  destruct (List.find _ _) as [w|] eqn:Hfind; [|exact Hs].
  apply find_available in Hfind as [Hin Hidle].
  assert (Hfree : length (assignedTo w s) = 0%nat).
  { destruct (Hslots w) as [_ Hbusy].
    destruct (length (assignedTo w s)); [reflexivity|].
    exfalso. apply Hidle, Hbusy. lia. }
  destruct (Map_get _ fileId) as [imageFile|]; cbn.
  - split; [exact Hpool|]. split.
    + intros w' Hw'. cbn in Hw'.
      destruct (decide (w = w')) as [<-|Hne]; [exact Hin|].
      rewrite lookup_insert_ne in Hw' by exact Hne. now apply Hkeys.
    + intros w'. destruct (Hslots w') as [Hle Hbusy]. clear Hslots.
      count_jobs. cbn.
      case_decide as Hw.
      * subst w'. rewrite lookup_insert_eq. split; [lia|reflexivity].
      * rewrite lookup_insert_ne by exact Hw. split; [lia|].
        intros Hpos. apply Hbusy. lia.
  - split; [exact Hpool|]. split.
    + intros w' Hw'. cbn in Hw'.
      destruct (decide (w = w')) as [<-|Hne]; [exact Hin|].
      rewrite lookup_insert_ne in Hw' by exact Hne. now apply Hkeys.
    + intros w'. destruct (Hslots w') as [Hle Hbusy]. clear Hslots.
      count_jobs. cbn. split; [exact Hle|].
      intros Hpos. destruct (decide (w = w')) as [<-|Hne].
      * apply lookup_insert_eq.
      * rewrite lookup_insert_ne by exact Hne. now apply Hbusy.
Qed.

Lemma slotInvariant_processNextTimes n s :
  slotInvariant s -> slotInvariant (processNextTimes n s).
Proof.
  revert s. induction n as [|n IH]; intros s Hs; cbn; [exact Hs|].
  pose proof (slotInvariant_processNext s Hs) as Hnext.
  destruct (processNext s) as [s' [e|]]; cbn in Hnext; auto.
Qed.

Lemma slotInvariant_startCompression s :
  slotInvariant s -> slotInvariant (startCompression s).
Proof.
  intros Hs. unfold startCompression.
  destruct (_ || _); [exact Hs|].
  apply slotInvariant_processNextTimes. exact Hs.
Qed.

Lemma slotInvariant_fire s before t after :
  slotInvariant s -> timers s = before ++ t :: after ->
  slotInvariant (fire t (set_timers (before ++ after) s)).
Proof.
  intros (Hpool & Hkeys & Hslots) Htimers.
  assert (Hrest : slotInvariant (set_timers (before ++ after) s) /\
                  forall w,
                    length (assignedTo w s)
                    = (length (assignedTo w (set_timers (before ++ after) s))
                       + length (sendsOf w [t]))%nat).
  { assert (Hlen : forall w,
              length (assignedTo w s)
              = (length (assignedTo w (set_timers (before ++ after) s))
                 + length (sendsOf w [t]))%nat).
    { intros w. unfold assignedTo. cbn. rewrite Htimers.
      change (t :: after) with ([t] ++ after).
      rewrite !sendsOf_app, !length_app. lia. }
    split; [|exact Hlen].
    split; [exact Hpool|]. split; [exact Hkeys|].
    intros w. specialize (Hlen w). destruct (Hslots w) as [Hle Hbusy].
    split; [lia|]. intros Hpos. apply Hbusy. lia. }
  destruct Hrest as [Hrest Hlen].
  destruct t as [|worker fileId imageFile].
  - now apply slotInvariant_processNext.
  - cbn [fire]. destruct imageFile as [imageFile|]; cbn [sendImageToWorker fst];
      [|exact Hrest].
    split; [exact Hpool|]. split; [exact Hkeys|].
    intros w. specialize (Hlen w). destruct (Hslots w) as [Hle Hbusy].
    clear Hslots Hrest. count_jobs. cbn.
    case_decide; (split; [lia|]); intros Hpos; apply Hbusy; lia.
Qed.

Lemma slotInvariant_handleWorkerMessage s before worker data after result :
  slotInvariant s -> posted s = before ++ (worker, data) :: after ->
  slotInvariant
    (handleWorkerMessage worker result (set_posted (before ++ after) s)).
Proof.
  intros (Hpool & Hkeys & Hslots) Hposted.
  assert (Hlen : forall w,
            length (assignedTo w s)
            = (length (assignedTo w (set_posted (before ++ after) s))
               + if decide (worker = w) then 1 else 0)%nat).
  { intros w. unfold assignedTo. cbn. rewrite Hposted.
    rewrite !jobsOf_app, !length_app, length_jobsOf_cons. lia. }
  assert (Hin : worker ∈ workers s).
  { apply Hkeys. destruct (Hslots worker) as [_ Hbusy].
    rewrite Hbusy; [eauto|]. specialize (Hlen worker).
    rewrite decide_True in Hlen by reflexivity. lia. }
  set (s0 := set_posted (before ++ after) s) in *.
  set (s1 := set_workerStatus (<[worker := false]> (workerStatus s0)) s0).
  assert (Hidle : slotInvariant s1 /\ length (assignedTo worker s1) = 0%nat).
  { split.
    - split; [exact Hpool|]. split.
      + intros w Hw. cbn in Hw.
        destruct (decide (worker = w)) as [<-|Hne]; [exact Hin|].
        rewrite lookup_insert_ne in Hw by exact Hne. now apply Hkeys.
      + intros w. specialize (Hlen w). destruct (Hslots w) as [Hle Hbusy].
        change (assignedTo w s1) with (assignedTo w s0).
        cbn [workerStatus set_workerStatus s1].
        case_decide as Hw.
        * subst w. split; [lia|]. intros Hpos. lia.
        * rewrite lookup_insert_ne by exact Hw. split; [lia|].
          intros Hpos. apply Hbusy. lia.
    - change (assignedTo worker s1) with (assignedTo worker s0).
      specialize (Hlen worker). destruct (Hslots worker) as [Hle _].
      rewrite decide_True in Hlen by reflexivity. lia. }
  destruct Hidle as [Hidle Hfree].
  unfold handleWorkerMessage. fold s1.
  destruct (Map_get (files s0) (Worker.id result)) as [imageFile|]; [|exact Hidle].
  set (s2 := recordResult result imageFile s1).
  assert (Hs2 : slotInvariant s2 /\ assignedTo worker s2 = assignedTo worker s1 /\
                workers s2 = workers s).
  { unfold s2, recordResult.
    destruct (Worker.success result), (Worker.compressedData result);
      (split; [exact Hidle | split; reflexivity]). }
  destruct Hs2 as (Hs2 & Hsame & Hworkers).
  pose proof Hs2 as (Hpool2 & Hkeys2 & Hslots2).
  unfold finishOrContinue. cbv zeta.
  destruct (_ =? _)%nat; [exact Hs2|].
  destruct (processingQueue s2) as [|nextFileId queue]; [exact Hs2|].
  split; [exact Hpool2|]. split.
  - intros w Hw. cbn in Hw.
    destruct (decide (worker = w)) as [<-|Hne].
    { change (worker ∈ workers s2). now rewrite Hworkers. }
    rewrite lookup_insert_ne in Hw by exact Hne. now apply Hkeys2.
  - intros w. destruct (Hslots2 w) as [Hle Hbusy].
    rewrite <- Hsame in Hfree.
    clear Hslots2 Hslots Hsame Hs2 Hidle Hlen. count_jobs. cbn.
    case_decide as Hw.
    + subst w. rewrite lookup_insert_eq. split; [lia|reflexivity].
    + rewrite lookup_insert_ne by exact Hw. split; [lia|].
      intros Hpos. apply Hbusy. lia.
Qed.

Lemma slotInvariant_step s s' : step s s' -> slotInvariant s -> slotInvariant s'.
Proof.
  intros Hstep Hs. destruct Hstep.
  - exact Hs.
  - now apply slotInvariant_startCompression.
  - exact Hs.
  - eapply slotInvariant_fire; eassumption.
  - eapply slotInvariant_handleWorkerMessage; eassumption.
Qed.

Lemma slotInvariant_reachable s0 s :
  reachable s0 s -> slotInvariant s0 -> slotInvariant s.
Proof.
  induction 1 as [|s1 s2 s3 Hstep _ IH]; intros Hs; [exact Hs|].
  apply IH. eapply slotInvariant_step; eassumption.
Qed.

Lemma busyCount_bound s : slotInvariant s -> (busyCount s <= maxWorkers s)%nat.
Proof.
  intros (Hpool & Hkeys & _). unfold busyCount.
  etransitivity; [apply map_size_filter|].
  rewrite <- (size_dom (D := gset nat)).
  rewrite <- (size_set_seq (C := gset nat) 0 (maxWorkers s)).
  apply subseteq_size. intros w Hw.
  apply elem_of_dom in Hw. apply Hkeys in Hw. rewrite Hpool in Hw.
  apply elem_of_set_seq. apply elem_of_seq in Hw. lia.
Qed.

Lemma maxWorkers_processNext s : maxWorkers (processNext s).1 = maxWorkers s.
Proof.
  unfold processNext.
  destruct (processingQueue s); [reflexivity|].
  destruct (List.find _ _); [|reflexivity].
  destruct (Map_get _ _); reflexivity.
Qed.

Lemma maxWorkers_processNextTimes n s :
  maxWorkers (processNextTimes n s) = maxWorkers s.
Proof.
  revert s. induction n as [|n IH]; intros s; cbn; [reflexivity|].
  pose proof (maxWorkers_processNext s) as Hnext.
  destruct (processNext s) as [s' [e|]]; cbn in Hnext; [exact Hnext|].
  now rewrite IH.
Qed.

Lemma maxWorkers_recordResult result imageFile s :
  maxWorkers (recordResult result imageFile s) = maxWorkers s.
Proof.
  unfold recordResult.
  destruct (Worker.success result), (Worker.compressedData result); reflexivity.
Qed.

Lemma maxWorkers_finishOrContinue worker s :
  maxWorkers (finishOrContinue worker s) = maxWorkers s.
Proof.
  unfold finishOrContinue. cbv zeta.
  destruct (_ =? _)%nat; [reflexivity|].
  destruct (processingQueue s); reflexivity.
Qed.

Lemma maxWorkers_step s s' : step s s' -> maxWorkers s' = maxWorkers s.
Proof.
  intros Hstep. destruct Hstep.
  - reflexivity.
  - unfold startCompression. destruct (_ || _); [reflexivity|].
    now rewrite maxWorkers_processNextTimes.
  - reflexivity.
  - destruct t as [|w fileId [imageFile|]]; cbn [fire];
      [now rewrite maxWorkers_processNext | reflexivity | reflexivity].
  - unfold handleWorkerMessage.
    destruct (Map_get _ _); [|reflexivity].
    now rewrite maxWorkers_finishOrContinue, maxWorkers_recordResult.
Qed.

Lemma maxWorkers_reachable s0 s : reachable s0 s -> maxWorkers s = maxWorkers s0.
Proof.
  induction 1 as [|s1 s2 s3 Hstep _ IH]; [reflexivity|].
  rewrite IH. now apply maxWorkers_step.
Qed.

(** C6: in every state the page can reach from the constructor, by any
    interleaving of added files, clicks, timers and worker answers, the
    number of slots marked busy is at most the pool size [maxWorkers],
    and no slot holds more than one job (posted and unanswered, or
    scheduled to be posted). *)
Theorem busy_slots_bounded (n : nat) (formOptions : Worker.ImageProcessingOptions)
    (s : State) :
  reachable (initial n formOptions) s ->
  maxWorkers s = n /\
  (busyCount s <= maxWorkers s)%nat /\
  forall w, (length (assignedTo w s) <= 1)%nat.
Proof.
  intros Hreach.
  pose proof (slotInvariant_reachable _ _ Hreach
                (slotInvariant_initial n formOptions)) as Hinv.
  split; [exact (maxWorkers_reachable _ _ Hreach)|].
  split; [now apply busyCount_bound|].
  intros w. destruct Hinv as (_ & _ & Hslots). apply Hslots.
Qed.

(** *** Results that fail *)

(** A failure Result changes no file, so it is never counted as
    completed; unless every file was processed already, it also leaves
    [processing] and the compress button as they were. *)
Lemma failure_not_counted worker result s :
  Worker.success result = false ->
  let s' := handleWorkerMessage worker result s in
  files s' = files s /\
  completedCount s' = completedCount s /\
  (completedCount s <> length (files s) ->
   processing s' = processing s /\
   compressBtn_disabled s' = compressBtn_disabled s).
Proof.
  intros Hfail. unfold handleWorkerMessage.
  destruct (Map_get (files s) (Worker.id result)) as [imageFile|];
    [|cbn; auto].
  unfold recordResult. rewrite Hfail.
  unfold finishOrContinue, completedCount. cbn.
  destruct (_ =? _)%nat eqn:Hdone.
  - apply Nat.eqb_eq in Hdone. cbn. repeat split; congruence.
  - destruct (processingQueue s); cbn; auto.
Qed.

(** *** The runs *)

Lemma threeFilesStarted_reachable :
  reachable (initial 2 Worker.jpegOptions) threeFilesStarted.
Proof.
  unfold threeFilesStarted, reachable.
  eapply rtc_l; [apply step_addFile|].
  eapply rtc_l; [apply step_addFile|].
  eapply rtc_l; [apply step_addFile|].
  eapply rtc_l; [apply step_startCompression|].
  apply rtc_refl.
Qed.

Example threeFilesStarted_dispatch :
  processingQueue threeFilesStarted = ["c"] /\
  jobsOf 0 (posted threeFilesStarted) = ["a"] /\
  jobsOf 1 (posted threeFilesStarted) = ["b"] /\
  busyCount threeFilesStarted = 2%nat.
Proof. vm_compute. repeat split. Qed.

Lemma busy_slots_bounded_witness :
  maxWorkers threeFilesStarted = 2%nat /\
  (busyCount threeFilesStarted <= maxWorkers threeFilesStarted)%nat /\
  forall w, (length (assignedTo w threeFilesStarted) <= 1)%nat.
Proof.
  exact (busy_slots_bounded 2 Worker.jpegOptions threeFilesStarted
           threeFilesStarted_reachable).
Defined.

Lemma oneFileFailed_reachable :
  reachable (initial 2 Worker.jpegOptions) oneFileFailed.
Proof.
  unfold reachable.
  apply rtc_l with (addFile "a" "a.jpg" jpegBytes (initial 2 Worker.jpegOptions));
    [apply step_addFile|].
  apply rtc_l with oneFileStarted; [apply step_startCompression|].
  apply rtc_l with (oneFileAnswered Worker.undecodablePlatform).
  { apply (step_result oneFileStarted [] 0%nat jobA [] Worker.undecodablePlatform).
    reflexivity. }
  apply rtc_l with oneFileFailed; [|apply rtc_refl].
  apply (step_timer (oneFileAnswered Worker.undecodablePlatform)
           [] processNextTimer []).
  reflexivity.
Qed.

(** The same run with a Result that succeeds ends the batch. *)
Example oneFileSucceeded_idle :
  completedCount oneFileSucceeded = 1%nat /\
  processing oneFileSucceeded = false /\
  compressBtn_disabled oneFileSucceeded = false.
Proof. vm_compute. repeat split. Qed.

(** C2, evaluated on the code: a batch of one job whose Result is a
    failure. The Result has arrived, no message is unanswered, no timer
    is pending and the queue is empty, yet the completed count, which
    counts the files marked [processed], is 0 and not 1, [processing] is
    still set and the compress button is still disabled; clicking it
    does nothing. A failure Result is never counted, so the batch never
    returns to Idle. *)
Theorem failed_result_never_completes :
  reachable (initial 2 Worker.jpegOptions) oneFileFailed /\
  Worker.success (Worker.processImage Worker.undecodablePlatform jobA) = false /\
  length (files oneFileFailed) = 1%nat /\
  posted oneFileFailed = [] /\
  timers oneFileFailed = [] /\
  processingQueue oneFileFailed = [] /\
  completedCount oneFileFailed = 0%nat /\
  processing oneFileFailed = true /\
  compressBtn_disabled oneFileFailed = true /\
  startCompression oneFileFailed = oneFileFailed.
Proof.
  split; [exact oneFileFailed_reachable|].
  vm_compute. repeat split.
Qed.

(** *** Clicking while a batch is running *)

(** C9, counterexample: the click made while [processing] is set leaves
    the state as it is; the id of the new file is neither in the queue
    nor posted to a worker. *)
Lemma startCompression_ignores_new_file :
  processing secondFileAdded = true /\
  is_Some (Map_get (files secondFileAdded) "b") /\
  startCompression secondFileAdded = secondFileAdded /\
  ("b" ∉ processingQueue (startCompression secondFileAdded)) /\
  (forall w, "b" ∉ assignedTo w (startCompression secondFileAdded)).
Proof.
  split; [reflexivity|]. split; [vm_compute; eauto|].
  split; [reflexivity|]. split.
  - vm_compute. apply not_elem_of_nil.
  - intros w Hin.
    assert (Hposted : posted (startCompression secondFileAdded) = [(0%nat, jobA)])
      by reflexivity.
    assert (Htimers : timers (startCompression secondFileAdded) = [processNextTimer])
      by reflexivity.
    unfold assignedTo, jobsOf, sendsOf in Hin. rewrite Hposted, Htimers in Hin.
    apply elem_of_app in Hin as [Hin|Hin];
      apply list_elem_of_omap in Hin as (x & Hx & Hf);
      apply list_elem_of_singleton in Hx; subst x; cbn in Hf;
      [case_decide|]; discriminate Hf.
Qed.

(** What is pending after an event was pending before it when the
    queue, the send timers and the posted messages of the new state all
    come from the pending work of the old one. *)
Lemma pending_from s s' :
  (forall fileId, fileId ∈ processingQueue s' -> pending fileId s) ->
  (forall worker fileId imageFile,
     sendTimer worker fileId imageFile ∈ timers s' -> pending fileId s) ->
  (forall worker data,
     (worker, data) ∈ posted s' -> pending (Worker.msg_id data) s) ->
  forall fileId, pending fileId s' -> pending fileId s.
Proof.
  intros Hqueue Htimers Hposted fileId [Hin|[(w & f & Hin)|(w & d & Hin & <-)]];
    eauto.
Qed.

Lemma pending_queue s fileId : fileId ∈ processingQueue s -> pending fileId s.
Proof. intros H. now left. Qed.

Lemma pending_timer s worker fileId imageFile :
  sendTimer worker fileId imageFile ∈ timers s -> pending fileId s.
Proof. intros H. right. left. eauto. Qed.

Lemma pending_posted s worker data :
  (worker, data) ∈ posted s -> pending (Worker.msg_id data) s.
Proof. intros H. right. right. eauto. Qed.

Lemma processNext_pending s :
  processingQueue (processNext s).1 `suffix_of` processingQueue s /\
  forall fileId, pending fileId (processNext s).1 -> pending fileId s.
Proof.
  unfold processNext.
  destruct (processingQueue s) as [|next queue] eqn:Hqueue;
    [cbn [fst]; rewrite Hqueue; now split|].
  destruct (List.find _ _) as [w|]; [|cbn [fst]; rewrite Hqueue; now split].
  assert (Hhead : pending next s).
  { apply pending_queue. rewrite Hqueue. apply list_elem_of_here. }
  assert (Htail : forall fileId, fileId ∈ queue -> pending fileId s).
  { intros fileId Hin. apply pending_queue. rewrite Hqueue.
    now apply list_elem_of_further. }
  cbn [files set_processingQueue].
  destruct (Map_get (files s) next) as [imageFile|]; cbn [sendImageToWorker fst].
  - split; [cbn; now exists [next]|].
    apply pending_from; cbn.
    + exact Htail.
    + intros worker fileId f Hin. apply elem_of_app in Hin as [Hin|Hin];
        [now apply (pending_timer s worker fileId f)|].
      apply list_elem_of_singleton in Hin. discriminate Hin.
    + intros worker data Hin. apply elem_of_app in Hin as [Hin|Hin];
        [now apply (pending_posted s worker)|].
      apply list_elem_of_singleton in Hin. injection Hin as -> ->. exact Hhead.
  - split; [cbn; now exists [next]|].
    apply pending_from; cbn.
    + exact Htail.
    + intros worker fileId f. apply pending_timer.
    + intros worker data. apply pending_posted.
Qed.

Lemma processNextTimes_pending n s :
  processingQueue (processNextTimes n s) `suffix_of` processingQueue s /\
  forall fileId, pending fileId (processNextTimes n s) -> pending fileId s.
Proof.
  revert s. induction n as [|n IH]; intros s; cbn [processNextTimes]; [now split|].
  destruct (processNext_pending s) as [Hsuffix Hpending].
  destruct (processNext s) as [s1 [e|]]; cbn [fst] in *; [now split|].
  destruct (IH s1) as [Hsuffix1 Hpending1].
  split; [now transitivity (processingQueue s1) | auto].
Qed.

Lemma fire_pending s before t after :
  timers s = before ++ t :: after ->
  let s' := fire t (set_timers (before ++ after) s) in
  processingQueue s' `suffix_of` processingQueue s /\
  forall fileId, pending fileId s' -> pending fileId s.
Proof.
  intros Htimers.
  assert (Hrest : forall fileId,
            pending fileId (set_timers (before ++ after) s) -> pending fileId s).
  { apply pending_from; cbn.
    - apply pending_queue.
    - intros worker fileId f Hin. apply (pending_timer s worker fileId f).
      rewrite Htimers. apply elem_of_app in Hin as [Hin|Hin]; apply elem_of_app;
        [now left | right; now apply list_elem_of_further].
    - intros worker data. apply pending_posted. }
  destruct t as [|worker fileId [imageFile|]]; cbn [fire sendImageToWorker fst].
  - destruct (processNext_pending (set_timers (before ++ after) s))
      as [Hsuffix Hpending].
    split; [exact Hsuffix | auto].
  - split; [reflexivity|]. intros id Hid. revert id Hid.
    apply pending_from; cbn.
    + apply pending_queue.
    + intros w id f Hin. apply Hrest. now apply (pending_timer _ w id f).
    + intros w data Hin. apply elem_of_app in Hin as [Hin|Hin];
        [now apply (pending_posted s w)|].
      apply list_elem_of_singleton in Hin. injection Hin as -> ->. cbn.
      apply (pending_timer s worker fileId (Some imageFile)).
      rewrite Htimers. apply elem_of_app. right. apply list_elem_of_here.
  - split; [reflexivity | exact Hrest].
Qed.

Lemma handleWorkerMessage_pending s before worker data after result :
  posted s = before ++ (worker, data) :: after ->
  let s' := handleWorkerMessage worker result (set_posted (before ++ after) s) in
  processingQueue s' `suffix_of` processingQueue s /\
  forall fileId, pending fileId s' -> pending fileId s.
Proof.
  intros Hposted.
  assert (Hold : forall w d, (w, d) ∈ before ++ after -> pending (Worker.msg_id d) s).
  { intros w d Hin. apply (pending_posted s w). rewrite Hposted.
    apply elem_of_app in Hin as [Hin|Hin]; apply elem_of_app;
      [now left | right; now apply list_elem_of_further]. }
  unfold handleWorkerMessage. cbv zeta. cbn [files set_posted].
  destruct (Map_get (files s) (Worker.id result)) as [imageFile|].
  2:{ split; [reflexivity|]. apply pending_from; cbn.
      - apply pending_queue.
      - intros w id f. apply pending_timer.
      - exact Hold. }
  set (s1 := recordResult result imageFile _).
  assert (Hs1 : processingQueue s1 = processingQueue s /\ timers s1 = timers s /\
                posted s1 = before ++ after).
  { unfold s1, recordResult.
    destruct (Worker.success result), (Worker.compressedData result); cbn; auto. }
  destruct Hs1 as (Hqueue1 & Htimers1 & Hposted1).
  unfold finishOrContinue. cbv zeta.
  destruct (_ =? _)%nat.
  { split; [cbn; now rewrite Hqueue1|]. apply pending_from; cbn.
    - rewrite Hqueue1. apply pending_queue.
    - rewrite Htimers1. intros w id f. apply pending_timer.
    - rewrite Hposted1. exact Hold. }
  rewrite Hqueue1.
  destruct (processingQueue s) as [|next queue] eqn:Hq.
  { split; [now rewrite Hqueue1|]. apply pending_from.
    - rewrite Hqueue1. intros id Hin. inversion Hin.
    - rewrite Htimers1. intros w id f. apply pending_timer.
    - rewrite Hposted1. exact Hold. }
  split; [cbn; now exists [next]|].
  apply pending_from; cbn.
  - intros id Hin. apply pending_queue. rewrite Hq.
    now apply list_elem_of_further.
  - rewrite Htimers1. intros w id f Hin. apply elem_of_app in Hin as [Hin|Hin];
      [now apply (pending_timer s w id f)|].
    apply list_elem_of_singleton in Hin. injection Hin as -> -> ->.
    apply pending_queue. rewrite Hq. apply list_elem_of_here.
  - rewrite Hposted1. exact Hold.
Qed.

Lemma whileProcessing_pending s s' :
  whileProcessing s s' ->
  processingQueue s' `suffix_of` processingQueue s /\
  forall fileId, pending fileId s' -> pending fileId s.
Proof.
  intros [Hprocessing Hevent].
  destruct Hevent as [s1 s2 Hstep | s1 worker _].
  - destruct Hstep as [s1 id name originalData | s1 | s1 | s1 before t after Ht
                      | s1 before worker data after P Hposted].
    + now split.
    + unfold startCompression. rewrite Hprocessing, orb_true_r. now split.
    + split; [cbn; apply suffix_nil|].
      apply pending_from; cbn.
      * intros id Hin. inversion Hin.
      * intros w id f. apply pending_timer.
      * intros w d. apply pending_posted.
    + now apply fire_pending.
    + exact (handleWorkerMessage_pending s1 before worker data after
               (Worker.processImage P data) Hposted).
  - now split.
Qed.

(** C9, as amended: [startCompression] called while a batch is running
    ([processing] set) returns at once and changes nothing: nothing is
    appended to the queue, nothing is dispatched and no second batch is
    started. Nor does anything else append to the pending work while
    the batch is running: through every sequence of events that happen
    while [processing] is set (files added, clicks, timers, Results,
    worker errors) the queue only loses ids from its head, and every id
    that is queued, scheduled or posted afterwards was pending already.
    A file added meanwhile is in the file table and nowhere else. *)
Theorem startCompression_while_processing (s : State) :
  processing s = true ->
  startCompression s = s /\
  forall s', rtc whileProcessing s s' ->
    (exists removed, processingQueue s = removed ++ processingQueue s') /\
    (forall fileId, pending fileId s' -> pending fileId s).
Proof.
  intros Hprocessing. split.
  { unfold startCompression. rewrite Hprocessing, orb_true_r. reflexivity. }
  clear Hprocessing. intros s' Hrun.
  change (processingQueue s' `suffix_of` processingQueue s /\
          forall fileId, pending fileId s' -> pending fileId s).
  induction Hrun as [s|s s1 s' Hstep _ [IHsuffix IHpending]]; [now split|].
  destruct (whileProcessing_pending s s1 Hstep) as [Hsuffix Hpending].
  split; [now transitivity (processingQueue s1) | auto].
Qed.

(** File "b" is added while file "a" is being processed, and the
    compress button is clicked again. *)
Lemma secondFileAdded_whileProcessing :
  rtc whileProcessing oneFileStarted (startCompression secondFileAdded).
Proof.
  apply rtc_l with secondFileAdded.
  - split; [reflexivity|]. apply event_step.
    exact (step_addFile oneFileStarted "b" "b.jpg" jpegBytes).
  - apply rtc_once. split; [reflexivity|]. apply event_step.
    exact (step_startCompression secondFileAdded).
Qed.

Lemma startCompression_while_processing_witness :
  startCompression secondFileAdded = secondFileAdded /\
  forall fileId,
    pending fileId (startCompression secondFileAdded) ->
    pending fileId oneFileStarted.
Proof.
  split.
  - exact (proj1 (startCompression_while_processing secondFileAdded eq_refl)).
  - exact (proj2 (proj2 (startCompression_while_processing oneFileStarted eq_refl)
                    (startCompression secondFileAdded)
                    secondFileAdded_whileProcessing)).
Defined.

(** ** Further properties of the coordinator *)

(** *** The file table *)

Lemma Map_get_set_eq {V : Type} (m : list (string * V)) key value :
  Map_get (Map_set m key value) key = Some value.
Proof.
  induction m as [|[k v] m IH]; cbn.
  - now rewrite String.eqb_refl.
  - destruct (String.eqb k key) eqn:Hk; cbn; rewrite Hk; auto.
Qed.

Lemma Map_get_set_ne {V : Type} (m : list (string * V)) key key' value :
  key <> key' -> Map_get (Map_set m key value) key' = Map_get m key'.
Proof.
  intros Hne. induction m as [|[k v] m IH]; cbn.
  - destruct (String.eqb_spec key key'); [contradiction|reflexivity].
  - destruct (String.eqb_spec k key) as [->|Hk]; cbn.
    + destruct (String.eqb_spec key key'); [contradiction|reflexivity].
    + now rewrite IH.
Qed.

Lemma Map_get_keys {V : Type} (m : list (string * V)) key :
  is_Some (Map_get m key) <-> key ∈ m.*1.
Proof.
  induction m as [|[k v] m IH]; cbn.
  - split; [intros [? [=]] | intros H; inversion H].
  - destruct (String.eqb_spec k key) as [->|Hk].
    + split; [intros _; apply list_elem_of_here | eauto].
    + rewrite IH. split; [apply list_elem_of_further|].
      intros H. apply elem_of_cons in H as [->|H]; [contradiction|exact H].
Qed.

Lemma Map_set_keys_present {V : Type} (m : list (string * V)) key value :
  is_Some (Map_get m key) -> (Map_set m key value).*1 = m.*1.
Proof.
  induction m as [|[k v] m IH]; cbn.
  - intros [? [=]].
  - destruct (String.eqb_spec k key) as [->|Hk]; cbn; [reflexivity|].
    intros H. now rewrite IH.
Qed.

Lemma Map_set_keys_absent {V : Type} (m : list (string * V)) key value :
  Map_get m key = None -> (Map_set m key value).*1 = m.*1 ++ [key].
Proof.
  induction m as [|[k v] m IH]; cbn; [reflexivity|].
  destruct (String.eqb_spec k key) as [->|Hk]; cbn; [discriminate|].
  intros H. now rewrite IH.
Qed.

Lemma Map_set_keys {V : Type} (m : list (string * V)) key value key' :
  key' ∈ (Map_set m key value).*1 <-> key' = key \/ key' ∈ m.*1.
Proof.
  destruct (Map_get m key) as [v|] eqn:Hget.
  - rewrite Map_set_keys_present by eauto.
    split; [auto|]. intros [->|H]; [|exact H].
    apply Map_get_keys. eauto.
  - rewrite Map_set_keys_absent by exact Hget.
    rewrite elem_of_app, list_elem_of_singleton. tauto.
Qed.

Lemma Map_set_NoDup {V : Type} (m : list (string * V)) key value :
  NoDup m.*1 -> NoDup (Map_set m key value).*1.
Proof.
  intros Hm. destruct (Map_get m key) as [v|] eqn:Hget.
  - now rewrite Map_set_keys_present by eauto.
  - rewrite Map_set_keys_absent by exact Hget.
    apply NoDup_app. split; [exact Hm|]. split; [|apply NoDup_singleton].
    intros k Hk Hin. apply list_elem_of_singleton in Hin. subst k.
    apply Map_get_keys in Hk. rewrite Hget in Hk. now destruct Hk.
Qed.

(** *** Dispatch never throws *)

(** Every queued id is the key of a file, every pending send carries
    its file, and no key occurs twice in the file table. *)
Definition queueInvariant (s : State) : Prop :=
  NoDup (files s).*1 /\
  (forall fileId, fileId ∈ processingQueue s -> is_Some (Map_get (files s) fileId)) /\
  (forall worker fileId imageFile,
     sendTimer worker fileId imageFile ∈ timers s -> is_Some imageFile).

Lemma queueInvariant_initial n formOptions : queueInvariant (initial n formOptions).
Proof.
  split; [constructor|]. split.
  - intros fileId H. inversion H.
  - intros w fileId f H. inversion H.
Qed.

Lemma processNext_cases s :
  (processNext s = (s, None)) \/
  exists fileId queue availableWorker,
    processingQueue s = fileId :: queue /\
    List.find (fun w => negb (isBusy s w)) (workers s) = Some availableWorker /\
    match Map_get (files s) fileId with
    | Some imageFile =>
        processNext s
        = (mkState (files s) (workers s)
             (<[availableWorker := true]> (workerStatus s)) (maxWorkers s)
             queue (processing s) (compressBtn_disabled s)
             (progressSection_shown s) (formOptions s)
             (timers s ++ [processNextTimer])
             (posted s ++
              [(availableWorker,
                {| Worker.msg_id := fileId;
                   Worker.imageData := originalData imageFile;
                   Worker.msg_filename := name imageFile;
                   Worker.options := formOptions s |})]),
           None)
    | None => exists s' e, processNext s = (s', Some e)
    end.
Proof.
  unfold processNext.
  destruct (processingQueue s) as [|fileId queue] eqn:Hqueue; [now left|].
  destruct (List.find _ _) as [w|] eqn:Hfind; [|now left].
  right. exists fileId, queue, w. split; [reflexivity|]. split; [reflexivity|].
  cbn. destruct (Map_get (files s) fileId); cbn; eauto.
Qed.

Lemma queueInvariant_processNext s :
  queueInvariant s ->
  queueInvariant (processNext s).1 /\ (processNext s).2 = None.
Proof.
  intros Hs. pose proof Hs as (Hkeys & Hqueue & Htimers).
  destruct (processNext_cases s) as [Hsame|(fileId & queue & w & Hq & _ & Hnext)].
  { rewrite Hsame. auto. }
  destruct (Hqueue fileId) as [imageFile Hfile]; [rewrite Hq; apply list_elem_of_here|].
  rewrite Hfile in Hnext. rewrite Hnext. cbn. split; [|reflexivity].
  split; [exact Hkeys|]. split.
  - intros id Hid. apply Hqueue. rewrite Hq. now apply list_elem_of_further.
  - intros w' id f Hin. apply elem_of_app in Hin as [Hin|Hin]; [eauto|].
    apply list_elem_of_singleton in Hin. discriminate.
Qed.

Lemma queueInvariant_processNextTimes n s :
  queueInvariant s -> queueInvariant (processNextTimes n s).
Proof.
  revert s. induction n as [|n IH]; intros s Hs; cbn; [exact Hs|].
  destruct (queueInvariant_processNext s Hs) as [Hnext Hnone].
  destruct (processNext s) as [s' [e|]]; cbn in *; [discriminate|auto].
Qed.

Lemma queueInvariant_step s s' : step s s' -> queueInvariant s -> queueInvariant s'.
Proof.
  intros Hstep Hs. pose proof Hs as (Hkeys & Hqueue & Htimers).
  destruct Hstep as [s id name originalData | s | s | s before t after Ht
                    | s before worker data after P Hposted].
  - split; [now apply Map_set_NoDup|]. split; [|exact Htimers].
    intros fileId Hin. cbn. apply Map_get_keys, Map_set_keys. right.
    now apply Map_get_keys, Hqueue.
  - unfold startCompression. destruct (_ || _); [exact Hs|].
    apply queueInvariant_processNextTimes.
    split; [exact Hkeys|]. split; [|exact Htimers].
    intros fileId Hin. cbn in *. now apply Map_get_keys.
  - split; [constructor|]. split; [|exact Htimers].
    intros fileId Hin. inversion Hin.
  - assert (Hrest : queueInvariant (set_timers (before ++ after) s)).
    { split; [exact Hkeys|]. split; [exact Hqueue|].
      intros w id f Hin. cbn in Hin. apply (Htimers w id f). rewrite Ht.
      apply elem_of_app in Hin as [Hin|Hin]; apply elem_of_app; [now left|].
      right. now apply list_elem_of_further. }
    destruct t as [|w fileId imageFile]; cbn [fire].
    + now apply queueInvariant_processNext.
    + destruct (Htimers w fileId imageFile) as [f ->].
      { rewrite Ht. apply elem_of_app. right. apply list_elem_of_here. }
      exact Hrest.
  - unfold handleWorkerMessage.
    set (s0 := set_posted (before ++ after) s).
    set (s1 := set_workerStatus _ s0).
    destruct (Map_get (files s0) _) as [imageFile|] eqn:Hfile; [|exact Hs].
    set (result := Worker.processImage P data) in *.
    assert (Hs2 : queueInvariant (recordResult result imageFile s1) /\
                  processingQueue (recordResult result imageFile s1)
                  = processingQueue s).
    { unfold recordResult.
      destruct (Worker.success result), (Worker.compressedData result);
        try (split; [exact Hs|reflexivity]).
      split; [|reflexivity].
      split; [now apply Map_set_NoDup|]. split; [|exact Htimers].
      intros fileId Hin. cbn. apply Map_get_keys, Map_set_keys. right.
      now apply Map_get_keys, Hqueue. }
    destruct Hs2 as [Hs2 Hq2]. pose proof Hs2 as (Hkeys2 & Hqueue2 & Htimers2).
    unfold finishOrContinue. cbv zeta.
    destruct (_ =? _)%nat; [exact Hs2|].
    rewrite Hq2 in Hqueue2 |- *.
    destruct (processingQueue s) as [|nextFileId queue]; [exact Hs2|].
    split; [exact Hkeys2|]. split.
    + intros fileId Hin. cbn in Hin. apply Hqueue2.
      now apply list_elem_of_further.
    + intros w id f Hin. cbn in Hin.
      apply elem_of_app in Hin as [Hin|Hin]; [now apply (Htimers2 w id f)|].
      apply list_elem_of_singleton in Hin. injection Hin as -> -> ->.
      apply Hqueue2. apply list_elem_of_here.
Qed.

Lemma queueInvariant_reachable s0 s :
  reachable s0 s -> queueInvariant s0 -> queueInvariant s.
Proof.
  induction 1 as [|s1 s2 s3 Hstep _ IH]; intros Hs; [exact Hs|].
  apply IH. eapply queueInvariant_step; eassumption.
Qed.

(** X7. In every state the page can reach, each queued id is the key
    of a file and each pending send carries its file: [processNext] and
    the send callbacks never throw (the two [files.get(...)!] are never
    undefined), and the file table never holds a key twice. *)
Theorem dispatch_never_throws (n : nat) (formOptions : Worker.ImageProcessingOptions)
    (s : State) :
  reachable (initial n formOptions) s ->
  (processNext s).2 = None /\
  (forall worker fileId imageFile,
     sendTimer worker fileId imageFile ∈ timers s ->
     (sendImageToWorker worker fileId imageFile s).2 = None) /\
  (forall fileId, fileId ∈ processingQueue s -> fileId ∈ (files s).*1) /\
  NoDup (files s).*1.
Proof.
  intros Hreach.
  pose proof (queueInvariant_reachable _ _ Hreach
                (queueInvariant_initial n formOptions)) as Hinv.
  pose proof Hinv as (Hkeys & Hqueue & Htimers).
  split; [apply (queueInvariant_processNext s Hinv)|]. split; [|split].
  - intros w id f Hin. destruct (Htimers w id f Hin) as [f' ->]. reflexivity.
  - intros id Hin. now apply Map_get_keys, Hqueue.
  - exact Hkeys.
Qed.

Lemma dispatch_never_throws_witness :
  (processNext threeFilesStarted).2 = None.
Proof.
  exact (proj1 (dispatch_never_throws 2 Worker.jpegOptions threeFilesStarted
                  threeFilesStarted_reachable)).
Defined.

(** *** Starting a batch *)

(** What a job posted for a file of the table looks like: it goes to a
    worker of the pool, and carries the id, the bytes and the name of
    the file and the options of the form. *)
Definition jobOf (s : State) (p : nat * Worker.ProcessImageMessage) : Prop :=
  p.1 ∈ workers s /\
  Worker.options p.2 = formOptions s /\
  exists imageFile,
    Map_get (files s) (Worker.msg_id p.2) = Some imageFile /\
    Worker.imageData p.2 = originalData imageFile /\
    Worker.msg_filename p.2 = name imageFile.

Lemma processNextTimes_fifo n s :
  (forall fileId, fileId ∈ processingQueue s -> is_Some (Map_get (files s) fileId)) ->
  exists new,
    posted (processNextTimes n s) = posted s ++ new /\
    processingQueue s
    = ((fun p => Worker.msg_id p.2) <$> new)
      ++ processingQueue (processNextTimes n s) /\
    Forall (jobOf s) new /\
    processing (processNextTimes n s) = processing s /\
    compressBtn_disabled (processNextTimes n s) = compressBtn_disabled s.
Proof.
  revert s. induction n as [|n IH]; intros s Hqueue; cbn [processNextTimes].
  { exists []. rewrite app_nil_r. auto. }
  destruct (processNext_cases s) as [Hsame|(fileId & queue & w & Hq & Hfind & Hnext)].
  { rewrite Hsame. apply IH, Hqueue. }
  destruct (Hqueue fileId) as [imageFile Hfile]; [rewrite Hq; apply list_elem_of_here|].
  rewrite Hfile in Hnext. rewrite Hnext.
  match goal with |- context [processNextTimes n ?s1] => set (s' := s1) end.
  destruct (IH s') as (new & Hposted & Hrest & Hjobs & Hprocessing & Hbtn).
  { intros id Hid. cbn. apply Hqueue. rewrite Hq. now apply list_elem_of_further. }
  eexists (_ :: new). rewrite Hposted. cbn [posted s']. rewrite <- app_assoc.
  split; [reflexivity|]. split; [|split; [|split]].
  - rewrite Hq. cbn. f_equal. exact Hrest.
  - constructor.
    + split; [|split; [reflexivity|]].
      * apply List.find_some in Hfind as [Hin _]. now apply list_elem_of_In.
      * exists imageFile. auto.
    + exact Hjobs.
  - exact Hprocessing.
  - exact Hbtn.
Qed.

(** X8. A click on the compress button with no batch running and a
    file in the table starts one: [processing] is set and the button
    disabled, and the keys of the file table, in insertion order, are
    split between the jobs posted by the call, in that order, and the
    queue left behind; each job posted goes to a worker of the pool and
    carries the bytes and the name of its file and the options of the
    form. No file is dropped or sent twice. *)
Theorem startCompression_fifo (s : State) :
  processing s = false -> files s <> [] ->
  processing (startCompression s) = true /\
  compressBtn_disabled (startCompression s) = true /\
  exists new,
    posted (startCompression s) = posted s ++ new /\
    (files s).*1
    = ((fun p => Worker.msg_id p.2) <$> new)
      ++ processingQueue (startCompression s) /\
    Forall (jobOf s) new.
Proof.
  intros Hidle Hfiles. unfold startCompression.
  rewrite Hidle, orb_false_r.
  destruct (length (files s) =? 0)%nat eqn:Hlength.
  { apply Nat.eqb_eq, length_zero_iff_nil in Hlength. contradiction. }
  cbv zeta.
  match goal with |- context [processNextTimes ?n ?s1] =>
    destruct (processNextTimes_fifo n s1) as (new & Hposted & Hqueue & Hjobs & Hp & Hb)
  end.
  { intros fileId Hin. cbn in *. now apply Map_get_keys. }
  rewrite Hp, Hb. split; [reflexivity|]. split; [reflexivity|].
  exists new. split; [exact Hposted|]. split; [exact Hqueue|]. exact Hjobs.
Qed.

Lemma startCompression_fifo_witness :
  exists new,
    posted threeFilesStarted = [] ++ new /\
    ["a"; "b"; "c"]
    = ((fun p => Worker.msg_id p.2) <$> new) ++ processingQueue threeFilesStarted.
Proof.
  destruct (startCompression_fifo
              (addFile "c" "c.jpg" jpegBytes
                 (addFile "b" "b.jpg" jpegBytes
                    (addFile "a" "a.jpg" jpegBytes (initial 2 Worker.jpegOptions))))
              eq_refl ltac:(discriminate))
    as (_ & _ & new & Hposted & Hkeys & _).
  exists new. split; [exact Hposted | exact Hkeys].
Defined.

(** The workers the next job can go to. *)
Definition idleWorkers (s : State) : list nat :=
  List.filter (fun w => negb (isBusy s w)) (workers s).

Lemma find_none_idle s :
  List.find (fun w => negb (isBusy s w)) (workers s) = None <-> idleWorkers s = [].
Proof.
  unfold idleWorkers. induction (workers s) as [|w l IH]; cbn; [tauto|].
  destruct (negb (isBusy s w)); [split; discriminate | exact IH].
Qed.

Lemma length_filter_remove (f : nat -> bool) (w : nat) (l : list nat) :
  NoDup l -> w ∈ l -> f w = true ->
  (length (List.filter (fun x => f x && negb (x =? w)%nat) l) + 1
   = length (List.filter f l))%nat.
Proof.
  intros Hnodup Hin Hf. induction l as [|x l IH]; [inversion Hin|].
  apply NoDup_cons in Hnodup as [Hx Hl]. cbn.
  destruct (Nat.eqb_spec x w) as [->|Hne].
  - rewrite Hf. cbn. f_equal.
    assert (Hsame : List.filter (fun x => f x && negb (x =? w)%nat) l
                    = List.filter f l).
    { apply List.filter_ext_in. intros y Hy.
      destruct (Nat.eqb_spec y w) as [->|_]; [|now rewrite andb_true_r].
      exfalso. apply Hx. now apply list_elem_of_In. }
    rewrite Hsame. lia.
  - apply elem_of_cons in Hin as [->|Hin]; [contradiction|].
    specialize (IH Hl Hin). rewrite andb_true_r.
    destruct (f x); cbn; lia.
Qed.

Lemma processNextTimes_conserving n s :
  NoDup (workers s) ->
  (forall fileId, fileId ∈ processingQueue s -> is_Some (Map_get (files s) fileId)) ->
  let s' := processNextTimes n s in
  workers s' = workers s /\
  (processingQueue s' = [] \/ idleWorkers s' = [] \/
   ((length (idleWorkers s') + n = length (idleWorkers s))%nat /\
    (length (processingQueue s') + n = length (processingQueue s))%nat)).
Proof.
  revert s. induction n as [|n IH]; intros s Hnodup Hqueue; cbn [processNextTimes].
  { cbn. split; [reflexivity|]. right. right. lia. }
  unfold processNext.
  destruct (processingQueue s) as [|fileId queue] eqn:Hq.
  { specialize (IH s Hnodup). rewrite Hq in IH.
    destruct (IH ltac:(intros ? H; inversion H)) as [Hw [H|[H|[_ H]]]];
      cbn zeta; (split; [exact Hw|]); auto.
    left. cbn in H. destruct (processingQueue (processNextTimes n s)); [reflexivity|].
    cbn in H. lia. }
  destruct (List.find _ _) as [w|] eqn:Hfind.
  2:{ apply find_none_idle in Hfind.
      assert (Hqueue' : forall fileId, fileId ∈ processingQueue s ->
                                  is_Some (Map_get (files s) fileId))
        by (rewrite Hq; exact Hqueue).
      destruct (IH s Hnodup Hqueue') as [Hw [H|[H|[H _]]]];
        cbn zeta; (split; [exact Hw|]); auto.
      right. left. rewrite Hfind in H. cbn in H.
      destruct (idleWorkers (processNextTimes n s)); [reflexivity|]. cbn in H. lia. }
  destruct (Hqueue fileId) as [imageFile Hfile]; [apply list_elem_of_here|].
  cbn [files set_processingQueue]. rewrite Hfile. cbn [sendImageToWorker].
  match goal with |- context [processNextTimes n ?s1] => set (s1' := s1) end.
  assert (Hidle1 : (length (idleWorkers s1') + 1 = length (idleWorkers s))%nat).
  { apply find_available in Hfind as Havailable. destruct Havailable as [Hin Hstatus].
    unfold idleWorkers. cbn [workers s1' set_timers set_posted set_workerStatus
                             set_processingQueue].
    rewrite <- (length_filter_remove (fun w => negb (isBusy s w)) w (workers s));
      [|exact Hnodup|exact Hin|].
    2:{ unfold isBusy. destruct (workerStatus s !! w) as [[]|]; cbn; congruence. }
    f_equal. f_equal. apply List.filter_ext. intros w'.
    unfold isBusy. cbn [workerStatus s1' set_timers set_posted set_workerStatus
                          set_processingQueue].
    destruct (Nat.eqb_spec w' w) as [->|Hne].
    - rewrite lookup_insert_eq. cbn. now rewrite andb_false_r.
    - rewrite lookup_insert_ne by congruence. now rewrite andb_true_r. }
  destruct (IH s1') as [Hw [H|[H|[Hi Hl]]]]; [exact Hnodup| |..];
    cbn zeta; try (split; [exact Hw|]); auto.
  { intros id Hid. cbn. apply Hqueue. now apply list_elem_of_further. }
  right. right. cbn [processingQueue s1' set_timers set_posted set_workerStatus
                       set_processingQueue length] in *. lia.
Qed.

(** X9. Starting a batch is work-conserving: after the click, either
    no file is left in the queue or every worker of the pool is marked
    busy. *)
Theorem startCompression_work_conserving (n : nat)
    (formOptions : Worker.ImageProcessingOptions) (s : State) :
  reachable (initial n formOptions) s ->
  processing s = false -> files s <> [] ->
  processingQueue (startCompression s) = [] \/
  forall w, w ∈ workers (startCompression s) -> isBusy (startCompression s) w = true.
Proof.
  intros Hreach Hidle Hfiles.
  pose proof (slotInvariant_reachable _ _ Hreach
                (slotInvariant_initial n formOptions)) as (Hpool & _ & _).
  unfold startCompression. rewrite Hidle, orb_false_r.
  destruct (length (files s) =? 0)%nat eqn:Hlength.
  { apply Nat.eqb_eq, length_zero_iff_nil in Hlength. contradiction. }
  cbv zeta.
  match goal with |- context [processNextTimes ?k ?s1] =>
    pose proof (processNextTimes_conserving k s1) as Hcons; set (s' := processNextTimes k s1) in *
  end.
  destruct Hcons as [Hworkers Hcases].
  { cbn. rewrite Hpool. apply NoDup_seq. }
  { intros fileId Hin. cbn in *. now apply Map_get_keys. }
  cbv zeta in Hcases.
  assert (Hnoidle : idleWorkers s' = [] ->
                    forall w, w ∈ workers s' -> isBusy s' w = true).
  { intros Hnone w Hin. unfold idleWorkers in Hnone.
    destruct (isBusy s' w) eqn:Hbusy; [reflexivity|].
    assert (Hw : In w (List.filter (fun w => negb (isBusy s' w)) (workers s'))).
    { apply List.filter_In. split; [now apply list_elem_of_In|]. now rewrite Hbusy. }
    rewrite Hnone in Hw. inversion Hw. }
  destruct Hcases as [Hempty|[Hnone|[Hi Hl]]]; [now left | right; auto |].
  cbn [processingQueue set_processingQueue set_processing files maxWorkers] in Hi, Hl.
  rewrite length_fmap in Hi, Hl.
  destruct (Nat.min_spec (maxWorkers s) (length (files s))) as [[_ Hmin]|[_ Hmin]];
    rewrite Hmin in Hi, Hl.
  - right. apply Hnoidle.
    assert (Hbound : (length (idleWorkers
                                (set_processingQueue (files s).*1
                                   (set_processing true true true s)))
                      <= maxWorkers s)%nat).
    { unfold idleWorkers. etransitivity; [apply List.filter_length_le|].
      cbn. rewrite Hpool, length_seq. lia. }
    destruct (idleWorkers s'); [reflexivity|]. cbn [length] in Hi. lia.
  - left. destruct (processingQueue s'); [reflexivity|]. cbn [length] in Hl. lia.
Qed.

Lemma startCompression_work_conserving_witness :
  processingQueue threeFilesStarted = [] \/
  forall w, w ∈ workers threeFilesStarted -> isBusy threeFilesStarted w = true.
Proof.
  apply (startCompression_work_conserving 2 Worker.jpegOptions
           (addFile "c" "c.jpg" jpegBytes
              (addFile "b" "b.jpg" jpegBytes
                 (addFile "a" "a.jpg" jpegBytes (initial 2 Worker.jpegOptions))))).
  - unfold reachable. do 3 (eapply rtc_r; [|apply step_addFile]). apply rtc_refl.
  - reflexivity.
  - discriminate.
Defined.

(** *** Recording a Result *)

(** The file as [handleWorkerMessage] leaves it after a successful
    Result. *)
Definition recorded (imageFile : ImageFile) (result : Worker.ProcessImageResult)
    (data : list byte) : ImageFile :=
  {| id := id imageFile; name := name imageFile;
     originalData := originalData imageFile;
     compressedData := Some data;
     originalSize := originalSize imageFile;
     compressedSize := Some (Worker.compressedSize result);
     originalDimensions := Some (Worker.originalDimensions result);
     compressedDimensions := Some (Worker.compressedDimensions result);
     processed := true;
     selected := selected imageFile |}.

Lemma files_finishOrContinue worker s :
  files (finishOrContinue worker s) = files s.
Proof.
  unfold finishOrContinue. cbv zeta.
  destruct (_ =? _)%nat; [reflexivity|].
  destruct (processingQueue s); reflexivity.
Qed.

Lemma files_handleWorkerMessage_success worker result s imageFile data :
  Map_get (files s) (Worker.id result) = Some imageFile ->
  Worker.success result = true ->
  Worker.compressedData result = Some data ->
  files (handleWorkerMessage worker result s)
  = Map_set (files s) (Worker.id result) (recorded imageFile result data).
Proof.
  intros Hfile Hsuccess Hdata. unfold handleWorkerMessage. rewrite Hfile.
  rewrite files_finishOrContinue. unfold recordResult.
  rewrite Hsuccess, Hdata. reflexivity.
Qed.

(** X10. A successful Result is recorded on the file with its id and on
    no other: that file becomes processed and takes the compressed
    bytes, size and dimensions of the Result, keeping its own name,
    original bytes and selection; every other file, and the order of
    the table, stay as they were. Results can therefore arrive in any
    order. *)
Theorem handleWorkerMessage_records (worker : nat)
    (result : Worker.ProcessImageResult) (s : State)
    (imageFile : ImageFile) (data : list byte) :
  Map_get (files s) (Worker.id result) = Some imageFile ->
  Worker.success result = true ->
  Worker.compressedData result = Some data ->
  Map_get (files (handleWorkerMessage worker result s)) (Worker.id result)
  = Some (recorded imageFile result data) /\
  (forall fileId, fileId <> Worker.id result ->
     Map_get (files (handleWorkerMessage worker result s)) fileId
     = Map_get (files s) fileId) /\
  (files (handleWorkerMessage worker result s)).*1 = (files s).*1.
Proof.
  intros Hfile Hsuccess Hdata.
  rewrite (files_handleWorkerMessage_success _ _ _ _ _ Hfile Hsuccess Hdata).
  split; [apply Map_get_set_eq|]. split.
  - intros fileId Hne. apply Map_get_set_ne. congruence.
  - apply Map_set_keys_present. eauto.
Qed.

Lemma handleWorkerMessage_records_witness :
  Map_get (files (oneFileAnswered (Worker.decodingPlatform 800 600))) "a"
  = Some {| id := "a"; name := "a.jpg"; originalData := jpegBytes;
            compressedData := Some [Byte.x2a];
            originalSize := 34; compressedSize := Some 1;
            originalDimensions :=
              Some {| Worker.dim_width := 800; Worker.dim_height := 600 |};
            compressedDimensions :=
              Some {| Worker.dim_width := 800; Worker.dim_height := 600 |};
            processed := true; selected := true |}.
Proof.
  exact (proj1 (handleWorkerMessage_records 0
                  (Worker.processImage (Worker.decodingPlatform 800 600) jobA)
                  (set_posted [] oneFileStarted) _ [Byte.x2a]
                  eq_refl eq_refl eq_refl)).
Defined.

(** The number of processed files changes with the file that is
    replaced. *)
Lemma count_Map_set (m : list (string * ImageFile)) key old new :
  NoDup m.*1 -> Map_get m key = Some old ->
  (length (List.filter (fun f => processed f) (Map_set m key new).*2)
   + (if processed old then 1 else 0)
   = length (List.filter (fun f => processed f) m.*2)
     + (if processed new then 1 else 0))%nat.
Proof.
  intros Hnodup. induction m as [|[k v] m IH]; cbn; [discriminate|].
  apply NoDup_cons in Hnodup as [_ Hm].
  destruct (String.eqb_spec k key) as [->|Hk]; cbn.
  - intros [= ->]. destruct (processed old), (processed new); cbn; lia.
  - intros Hget. specialize (IH Hm Hget). destruct (processed v); cbn; lia.
Qed.

(** X11. Each file is counted once: a successful Result raises the
    completed count by one when its file was not processed yet, and
    leaves it unchanged when the file was processed already (a second
    Result for the same id); the count never exceeds the number of
    files. *)
Theorem completedCount_once (worker : nat)
    (result : Worker.ProcessImageResult) (s : State)
    (imageFile : ImageFile) (data : list byte) :
  NoDup (files s).*1 ->
  Map_get (files s) (Worker.id result) = Some imageFile ->
  Worker.success result = true ->
  Worker.compressedData result = Some data ->
  completedCount (handleWorkerMessage worker result s)
  = (completedCount s + if processed imageFile then 0 else 1)%nat /\
  (completedCount (handleWorkerMessage worker result s)
   <= length (files (handleWorkerMessage worker result s)))%nat.
Proof.
  intros Hnodup Hfile Hsuccess Hdata. split.
  - unfold completedCount.
    rewrite (files_handleWorkerMessage_success _ _ _ _ _ Hfile Hsuccess Hdata).
    pose proof (count_Map_set (files s) (Worker.id result) imageFile
                  (recorded imageFile result data) Hnodup Hfile) as Hcount.
    cbn [processed recorded] in Hcount.
    destruct (processed imageFile); lia.
  - unfold completedCount. etransitivity; [apply List.filter_length_le|].
    now rewrite length_fmap.
Qed.

Lemma completedCount_once_witness :
  completedCount (oneFileAnswered (Worker.decodingPlatform 800 600)) = 1%nat.
Proof.
  exact (proj1 (completedCount_once 0
                  (Worker.processImage (Worker.decodingPlatform 800 600) jobA)
                  (set_posted [] oneFileStarted) _ [Byte.x2a]
                  ltac:(vm_compute; repeat constructor; set_solver)
                  eq_refl eq_refl eq_refl)).
Defined.

Lemma all_processed_count (m : list (string * ImageFile)) :
  (forall key f, Map_get m key = Some f -> processed f = true) ->
  NoDup m.*1 ->
  length (List.filter (fun f => processed f) m.*2) = length m.
Proof.
  induction m as [|[k v] m IH]; intros Hall Hnodup; cbn; [reflexivity|].
  apply NoDup_cons in Hnodup as [Hk Hm].
  rewrite (Hall k v) by (cbn; now rewrite String.eqb_refl). cbn. f_equal.
  apply IH; [|exact Hm]. intros key f Hget. apply (Hall key). cbn.
  destruct (String.eqb_spec k key) as [->|_]; [|exact Hget].
  exfalso. apply Hk, Map_get_keys. eauto.
Qed.

Lemma unprocessed_count (m : list (string * ImageFile)) key f :
  Map_get m key = Some f -> processed f = false ->
  (length (List.filter (fun f => processed f) m.*2) < length m)%nat.
Proof.
  induction m as [|[k v] m IH]; cbn; [discriminate|].
  destruct (String.eqb_spec k key) as [->|_].
  - intros [= ->] Hf. rewrite Hf.
    pose proof (List.filter_length_le (fun f => processed f) m.*2) as Hle.
    rewrite length_fmap in Hle. lia.
  - intros Hget Hf. specialize (IH Hget Hf).
    destruct (processed v); cbn; lia.
Qed.

(** X12. The batch ends with the Result that completes the table: when
    a successful Result arrives for a file and every other file is
    processed already, [processing] is cleared, the compress button is
    enabled again and the progress section hidden, and nothing more is
    scheduled. *)
Theorem last_result_ends_batch (worker : nat)
    (result : Worker.ProcessImageResult) (s : State)
    (imageFile : ImageFile) (data : list byte) :
  NoDup (files s).*1 ->
  Map_get (files s) (Worker.id result) = Some imageFile ->
  Worker.success result = true ->
  Worker.compressedData result = Some data ->
  (forall fileId f,
     fileId <> Worker.id result -> Map_get (files s) fileId = Some f ->
     processed f = true) ->
  let s' := handleWorkerMessage worker result s in
  completedCount s' = length (files s') /\
  processing s' = false /\
  compressBtn_disabled s' = false /\
  progressSection_shown s' = false /\
  timers s' = timers s /\
  processingQueue s' = processingQueue s.
Proof.
  intros Hnodup Hfile Hsuccess Hdata Hothers s'.
  unfold s', handleWorkerMessage. rewrite Hfile.
  set (s1 := set_workerStatus _ s).
  set (s2 := recordResult result imageFile s1).
  assert (Hs2 : s2 = set_files (Map_set (files s) (Worker.id result)
                                  (recorded imageFile result data)) s1).
  { unfold s2, recordResult. now rewrite Hsuccess, Hdata. }
  assert (Hcount : completedCount s2 = length (files s2)).
  { unfold completedCount. rewrite Hs2. cbn [files set_files].
    apply all_processed_count; [|now apply Map_set_NoDup].
    intros key f Hget.
    destruct (String.eqb_spec (Worker.id result) key) as [<-|Hne].
    - rewrite Map_get_set_eq in Hget. now injection Hget as <-.
    - rewrite Map_get_set_ne in Hget by exact Hne. eapply Hothers; eauto. }
  unfold finishOrContinue. cbv zeta.
  replace (completedCount s2 =? length (files s2))%nat with true
    by (symmetry; now apply Nat.eqb_eq).
  split; [exact Hcount|]. rewrite Hs2. cbn. auto.
Qed.

Lemma last_result_ends_batch_witness :
  processing (oneFileAnswered (Worker.decodingPlatform 800 600)) = false.
Proof.
  refine (proj1 (proj2 (last_result_ends_batch 0
                          (Worker.processImage (Worker.decodingPlatform 800 600) jobA)
                          (set_posted [] oneFileStarted) _ [Byte.x2a]
                          ltac:(vm_compute; repeat constructor; set_solver)
                          eq_refl eq_refl eq_refl _))).
  intros fileId f Hne Hget. exfalso.
  assert (Hkey : fileId ∈ (files (set_posted [] oneFileStarted)).*1)
    by (apply Map_get_keys; eauto).
  change (fileId ∈ ["a"]) in Hkey. apply list_elem_of_singleton in Hkey.
  subst fileId. now apply Hne.
Defined.

(** X13. While another file is still unprocessed, a Result (a success
    or a failure) for a file of the table does not end the batch: the
    worker that answered takes the head of the queue, scheduled through
    a timer and marked busy at once, or is left idle when the queue is
    empty. In both cases [processing] stays as it was. *)
Theorem handleWorkerMessage_continues (worker : nat)
    (result : Worker.ProcessImageResult) (s : State)
    (imageFile other : ImageFile) (otherId : string) :
  Map_get (files s) (Worker.id result) = Some imageFile ->
  otherId <> Worker.id result ->
  Map_get (files s) otherId = Some other -> processed other = false ->
  let s' := handleWorkerMessage worker result s in
  processing s' = processing s /\
  posted s' = posted s /\
  match processingQueue s with
  | nextFileId :: queue =>
      processingQueue s' = queue /\
      timers s'
      = timers s ++ [sendTimer worker nextFileId (Map_get (files s') nextFileId)] /\
      workerStatus s' !! worker = Some true
  | [] =>
      processingQueue s' = [] /\
      timers s' = timers s /\
      workerStatus s' !! worker = Some false
  end.
Proof.
  intros Hfile Hne Hother Hunprocessed s'.
  unfold s', handleWorkerMessage. rewrite Hfile.
  set (s1 := set_workerStatus _ s).
  set (s2 := recordResult result imageFile s1).
  assert (Hs2 : Map_get (files s2) otherId = Some other /\
                processingQueue s2 = processingQueue s /\
                timers s2 = timers s /\ posted s2 = posted s /\
                processing s2 = processing s /\
                workerStatus s2 = <[worker := false]> (workerStatus s)).
  { unfold s2, recordResult.
    destruct (Worker.success result), (Worker.compressedData result);
      cbn; rewrite ?Map_get_set_ne by congruence; auto 10. }
  destruct Hs2 as (Hother2 & Hq2 & Ht2 & Hp2 & Hpr2 & Hw2).
  pose proof (unprocessed_count (files s2) otherId other Hother2 Hunprocessed) as Hlt.
  unfold finishOrContinue. cbv zeta. fold (completedCount s2).
  replace (completedCount s2 =? length (files s2))%nat with false
    by (symmetry; apply Nat.eqb_neq; unfold completedCount; lia).
  rewrite Hq2. destruct (processingQueue s) as [|nextFileId queue]; cbn.
  - rewrite Hpr2, Hp2, Ht2, Hw2, lookup_insert_eq. auto 10.
  - rewrite Hpr2, Hp2, Ht2, lookup_insert_eq. auto 10.
Qed.

(** The first of three jobs is answered while the other two files are
    unprocessed. *)
Definition firstOfThreeAnswered : State :=
  handleWorkerMessage 0
    (Worker.processImage (Worker.decodingPlatform 800 600) jobA)
    (set_posted (drop 1 (posted threeFilesStarted)) threeFilesStarted).

Lemma handleWorkerMessage_continues_witness :
  processing firstOfThreeAnswered = true /\
  processingQueue firstOfThreeAnswered = [] /\
  workerStatus firstOfThreeAnswered !! 0%nat = Some true.
Proof.
  pose proof (handleWorkerMessage_continues 0
                (Worker.processImage (Worker.decodingPlatform 800 600) jobA)
                (set_posted (drop 1 (posted threeFilesStarted)) threeFilesStarted)
                {| id := "a"; name := "a.jpg"; originalData := jpegBytes;
                   compressedData := None; originalSize := 34;
                   compressedSize := None; originalDimensions := None;
                   compressedDimensions := None; processed := false;
                   selected := true |}
                {| id := "b"; name := "b.jpg"; originalData := jpegBytes;
                   compressedData := None; originalSize := 34;
                   compressedSize := None; originalDimensions := None;
                   compressedDimensions := None; processed := false;
                   selected := true |}
                "b" eq_refl ltac:(discriminate) eq_refl eq_refl)
    as (Hprocessing & _ & Hqueue & _ & Hbusy).
  exact (conj Hprocessing (conj Hqueue Hbusy)).
Defined.

(** *** After Clear *)

(** What happens on its own, with no user action: a pending timer
    fires, a worker answers, or a worker raises an error. *)
Inductive background : State -> State -> Prop :=
  | background_timer s before t after :
      timers s = before ++ t :: after ->
      background s (fire t (set_timers (before ++ after) s))
  | background_result s before worker data after P :
      posted s = before ++ (worker, data) :: after ->
      background s (handleWorkerMessage worker (Worker.processImage P data)
                      (set_posted (before ++ after) s))
  | background_error s worker :
      worker ∈ workers s ->
      background s (handleWorkerError worker s).

Lemma background_event s s' : background s s' -> event s s'.
Proof.
  intros [s0 before t after H | s0 before worker data after P H | s0 worker H].
  - apply event_step. eapply step_timer. exact H.
  - apply event_step. eapply step_result. exact H.
  - now apply event_workerError.
Qed.


(** Clear is clicked while the send of file "c" is scheduled, and the
    timer of that send fires afterwards. *)
Definition lateSend : State :=
  fire (sendTimer 0 "c" (Map_get (files firstOfThreeAnswered) "c"))
    (set_timers [processNextTimer; processNextTimer]
       (clearAll firstOfThreeAnswered)).


(** The job of file "c" is posted to worker 0 after Clear. *)
Example lateSend_posted :
  (fun p : nat * Worker.ProcessImageMessage => (p.1, Worker.msg_id p.2))
    <$> posted lateSend
  = [(1%nat, "b"); (0%nat, "c")].
Proof. vm_compute. reflexivity. Qed.


(** *** A slot is busy exactly while it holds a job *)

Definition busyInvariant (s : State) : Prop :=
  forall w, workerStatus s !! w = Some true -> (0 < length (assignedTo w s))%nat.

Lemma busyInvariant_initial n formOptions : busyInvariant (initial n formOptions).
Proof.
  intros w Hw. cbn in Hw. apply elem_of_list_to_map_2 in Hw.
  apply list_elem_of_fmap in Hw as (w' & Heq & _). discriminate Heq.
Qed.

Lemma busyInvariant_processNext s :
  queueInvariant s -> busyInvariant s -> busyInvariant (processNext s).1.
Proof.
  intros (_ & Hqueue & _) Hbusy.
  destruct (processNext_cases s) as [Hsame|(fileId & queue & w & Hq & _ & Hnext)].
  { now rewrite Hsame. }
  destruct (Hqueue fileId) as [imageFile Hfile]; [rewrite Hq; apply list_elem_of_here|].
  rewrite Hfile in Hnext. rewrite Hnext. cbn [fst].
  intros w' Hw'. cbn [workerStatus] in Hw'.
  destruct (decide (w = w')) as [<-|Hne].
  - count_jobs. rewrite decide_True by reflexivity. lia.
  - rewrite lookup_insert_ne in Hw' by exact Hne.
    specialize (Hbusy w' Hw'). count_jobs. lia.
Qed.

Lemma busyInvariant_step s s' :
  step s s' -> queueInvariant s -> busyInvariant s -> busyInvariant s'.
Proof.
  intros Hstep Hq Hbusy.
  destruct Hstep as [s id name originalData | s | s | s before t after Ht
                    | s before worker data after P Hposted].
  - exact Hbusy.
  - unfold startCompression. destruct (_ || _); [exact Hbusy|].
    match goal with |- busyInvariant (processNextTimes ?n ?s1) =>
      assert (Hs1 : queueInvariant s1 /\ busyInvariant s1); [|generalize n]
    end.
    { split; [|exact Hbusy]. destruct Hq as (Hkeys & _ & Htimers).
      split; [exact Hkeys|]. split; [|exact Htimers].
      intros fileId Hin. cbn in *. now apply Map_get_keys. }
    intros k. destruct Hs1 as [Hq1 Hb1]. revert Hq1 Hb1.
    generalize (set_processingQueue (files (set_processing true true true s)).*1
                  (set_processing true true true s)).
    induction k as [|k IH]; intros s1 Hq1 Hb1; cbn [processNextTimes]; [exact Hb1|].
    pose proof (busyInvariant_processNext s1 Hq1 Hb1) as Hb2.
    destruct (queueInvariant_processNext s1 Hq1) as [Hq2 Hnone].
    destruct (processNext s1) as [s2 [e|]]; cbn in *; [discriminate|auto].
  - exact Hbusy.
  - assert (Hrest : queueInvariant (set_timers (before ++ after) s)).
    { destruct Hq as (Hkeys & Hqueue & Htimers).
      split; [exact Hkeys|]. split; [exact Hqueue|].
      intros w id f Hin. cbn in Hin. apply (Htimers w id f). rewrite Ht.
      apply elem_of_app in Hin as [Hin|Hin]; apply elem_of_app; [now left|].
      right. now apply list_elem_of_further. }
    destruct t as [|worker fileId imageFile]; cbn [fire].
    + apply busyInvariant_processNext; [exact Hrest|].
      intros w Hw. specialize (Hbusy w Hw).
      unfold assignedTo in Hbusy. rewrite Ht in Hbusy. count_jobs. lia.
    + destruct Hq as (_ & _ & Htimers).
      destruct (Htimers worker fileId imageFile) as [f ->].
      { rewrite Ht. apply elem_of_app. right. apply list_elem_of_here. }
      cbn [sendImageToWorker fst]. intros w Hw. specialize (Hbusy w Hw).
      unfold assignedTo in Hbusy. rewrite Ht in Hbusy. count_jobs. lia.
  - unfold handleWorkerMessage.
    set (result := Worker.processImage P data).
    set (s0 := set_posted (before ++ after) s).
    set (s1 := set_workerStatus _ s0).
    assert (Hb1 : busyInvariant s1).
    { intros w Hw. cbn [workerStatus s1 set_workerStatus] in Hw.
      destruct (decide (worker = w)) as [<-|Hne];
        [rewrite lookup_insert_eq in Hw; discriminate|].
      rewrite lookup_insert_ne in Hw by exact Hne.
      specialize (Hbusy w Hw). unfold assignedTo in Hbusy.
      rewrite Hposted in Hbusy. unfold s1, s0. count_jobs.
      rewrite decide_False in Hbusy by exact Hne. lia. }
    destruct (Map_get (files s0) _) as [imageFile|]; [|exact Hb1].
    set (s2 := recordResult result imageFile s1).
    assert (Hb2 : busyInvariant s2 /\ timers s2 = timers s1 /\
                  posted s2 = posted s1 /\ workerStatus s2 = workerStatus s1).
    { unfold s2, recordResult.
      destruct (Worker.success result), (Worker.compressedData result);
        (split; [exact Hb1 | auto]). }
    destruct Hb2 as (Hb2 & Ht2 & Hp2 & Hw2).
    unfold finishOrContinue. cbv zeta.
    destruct (_ =? _)%nat; [exact Hb2|].
    destruct (processingQueue s2) as [|nextFileId queue]; [exact Hb2|].
    intros w Hw. cbn in Hw.
    destruct (decide (worker = w)) as [<-|Hne].
    + count_jobs. rewrite decide_True by reflexivity. lia.
    + rewrite lookup_insert_ne in Hw by exact Hne.
      specialize (Hb2 w Hw). clear Hbusy Hb1. count_jobs. lia.
Qed.

Lemma busyInvariant_reachable n formOptions s :
  reachable (initial n formOptions) s -> queueInvariant s /\ busyInvariant s.
Proof.
  intros Hreach. apply rtc_nsteps in Hreach as [k Hreach].
  revert s Hreach. induction k as [|k IH]; intros s Hreach.
  - inversion Hreach; subst.
    split; [apply queueInvariant_initial | apply busyInvariant_initial].
  - apply nsteps_inv_r in Hreach as (s' & Hreach & Hstep).
    destruct (IH s' Hreach) as [Hq Hb]. split.
    + eapply queueInvariant_step; eassumption.
    + eapply busyInvariant_step; eassumption.
Qed.

Lemma busyInvariant_reachableWithErrors n formOptions s :
  reachableWithErrors (initial n formOptions) s ->
  queueInvariant s /\ busyInvariant s.
Proof.
  intros Hreach. apply rtc_nsteps in Hreach as [k Hreach].
  revert s Hreach. induction k as [|k IH]; intros s Hreach.
  - inversion Hreach; subst.
    split; [apply queueInvariant_initial | apply busyInvariant_initial].
  - apply nsteps_inv_r in Hreach as (s' & Hreach & Hevent).
    destruct (IH s' Hreach) as [Hq Hb].
    destruct Hevent as [s1 s2 Hstep | s1 worker _].
    + split; [eapply queueInvariant_step | eapply busyInvariant_step]; eassumption.
    + split; [exact Hq|]. intros w Hw. cbn in Hw.
      destruct (decide (worker = w)) as [<-|Hne];
        [rewrite lookup_insert_eq in Hw; discriminate|].
      rewrite lookup_insert_ne in Hw by exact Hne. exact (Hb w Hw).
Qed.

Lemma reachable_withErrors s0 s : reachable s0 s -> reachableWithErrors s0 s.
Proof.
  induction 1 as [|s1 s2 s3 Hstep _ IH]; [apply rtc_refl|].
  eapply rtc_l; [apply event_step; exact Hstep | exact IH].
Qed.

(** After an error event a worker is idle while the job posted to it is
    unanswered: the worker that holds job "a" is marked idle. *)
Example workerError_idle_with_job :
  reachableWithErrors (initial 2 Worker.jpegOptions)
    (handleWorkerError 0 threeFilesStarted) /\
  workerStatus (handleWorkerError 0 threeFilesStarted) !! 0%nat = Some false /\
  assignedTo 0 (handleWorkerError 0 threeFilesStarted) = ["a"].
Proof.
  split; [|split; reflexivity].
  eapply rtc_r.
  - apply reachable_withErrors, threeFilesStarted_reachable.
  - apply event_workerError. vm_compute. set_solver.
Qed.

(** X15. In every state the page can reach, with worker error events
    included, a worker marked busy holds at least one job, posted to it
    and unanswered or scheduled for it by a pending send timer: no slot
    stays busy without work. In the states reached without worker error
    events the worker holds exactly one job, and a worker that holds a
    job is marked busy. *)
Theorem busy_iff_job (n : nat) (formOptions : Worker.ImageProcessingOptions)
    (s : State) (w : nat) :
  (reachableWithErrors (initial n formOptions) s ->
   workerStatus s !! w = Some true -> (1 <= length (assignedTo w s))%nat) /\
  (reachable (initial n formOptions) s ->
   (workerStatus s !! w = Some true <-> length (assignedTo w s) = 1%nat)).
Proof.
  split.
  - intros Hreach Hw.
    destruct (busyInvariant_reachableWithErrors n formOptions s Hreach) as [_ Hbusy].
    specialize (Hbusy w Hw). lia.
  - intros Hreach.
    destruct (busyInvariant_reachable n formOptions s Hreach) as [_ Hbusy].
    pose proof (slotInvariant_reachable _ _ Hreach
                  (slotInvariant_initial n formOptions)) as (_ & _ & Hslots).
    destruct (Hslots w) as [Hle Hjob]. split.
    + intros Hw. specialize (Hbusy w Hw). lia.
    + intros Hone. apply Hjob. lia.
Qed.

Lemma busy_iff_job_witness :
  workerStatus threeFilesStarted !! 1%nat = Some true
  <-> length (assignedTo 1 threeFilesStarted) = 1%nat.
Proof.
  exact (proj2 (busy_iff_job 2 Worker.jpegOptions threeFilesStarted 1)
           threeFilesStarted_reachable).
Defined.

(** *** The pool when workers raise errors *)

(** The pool is the one the constructor created, and only its workers
    have a status, a posted message or a scheduled send. *)
Definition poolInvariant (s : State) : Prop :=
  workers s = seq 0 (maxWorkers s) /\
  (forall w, is_Some (workerStatus s !! w) -> w ∈ workers s) /\
  (forall w data, (w, data) ∈ posted s -> w ∈ workers s) /\
  (forall w fileId imageFile,
     sendTimer w fileId imageFile ∈ timers s -> w ∈ workers s).

Lemma status_insert_keys (m : gmap nat bool) (pool : list nat) a b :
  (forall w, is_Some (m !! w) -> w ∈ pool) -> a ∈ pool ->
  forall w, is_Some (<[a := b]> m !! w) -> w ∈ pool.
Proof.
  intros Hkeys Ha w Hw. apply lookup_insert_is_Some in Hw as [<-|[_ Hw]]; auto.
Qed.

Lemma poolInvariant_initial n formOptions : poolInvariant (initial n formOptions).
Proof.
  destruct (slotInvariant_initial n formOptions) as (Hpool & Hkeys & _).
  split; [exact Hpool|]. split; [exact Hkeys|].
  split; cbn; intros; match goal with H : _ ∈ [] |- _ => inversion H end.
Qed.

Lemma poolInvariant_processNext s :
  poolInvariant s -> poolInvariant (processNext s).1.
Proof.
  intros Hs. pose proof Hs as (Hpool & Hkeys & Hposted & Htimers).
  unfold processNext.
  destruct (processingQueue s) as [|fileId queue]; [exact Hs|].
  destruct (List.find _ _) as [w|] eqn:Hfind; [|exact Hs].
  apply find_available in Hfind as [Hin _].
  cbn [files set_processingQueue].
  destruct (Map_get (files s) fileId) as [imageFile|]; cbn.
  - split; [exact Hpool|]. split; [now apply status_insert_keys|]. split.
    + intros w' d Hd. apply elem_of_app in Hd as [Hd|Hd]; [eauto|].
      apply list_elem_of_singleton in Hd. injection Hd as -> _. exact Hin.
    + intros w' id f Hf. apply elem_of_app in Hf as [Hf|Hf]; [eauto|].
      apply list_elem_of_singleton in Hf. discriminate Hf.
  - split; [exact Hpool|]. split; [now apply status_insert_keys|]. now split.
Qed.

Lemma poolInvariant_processNextTimes n s :
  poolInvariant s -> poolInvariant (processNextTimes n s).
Proof.
  revert s. induction n as [|n IH]; intros s Hs; cbn; [exact Hs|].
  pose proof (poolInvariant_processNext s Hs) as Hnext.
  destruct (processNext s) as [s' [e|]]; cbn in Hnext; auto.
Qed.

Lemma poolInvariant_event s s' : event s s' -> poolInvariant s -> poolInvariant s'.
Proof.
  intros Hevent Hs. pose proof Hs as (Hpool & Hkeys & Hposted & Htimers).
  destruct Hevent as [s s' Hstep | s worker Hin].
  2:{ split; [exact Hpool|]. split; [|now split].
      cbn. now apply status_insert_keys. }
  destruct Hstep as [s id name originalData | s | s | s before t after Ht
                    | s before worker data after P Hp].
  - exact Hs.
  - unfold startCompression. destruct (_ || _); [exact Hs|].
    apply poolInvariant_processNextTimes. exact Hs.
  - exact Hs.
  - assert (Hrest : poolInvariant (set_timers (before ++ after) s)).
    { split; [exact Hpool|]. split; [exact Hkeys|]. split; [exact Hposted|].
      cbn. intros w id f Hf. apply (Htimers w id f). rewrite Ht.
      apply elem_of_app in Hf as [Hf|Hf]; apply elem_of_app;
        [now left | right; now apply list_elem_of_further]. }
    destruct t as [|w fileId [imageFile|]]; cbn [fire sendImageToWorker fst];
      [now apply poolInvariant_processNext | | exact Hrest].
    destruct Hrest as (_ & _ & _ & Htimers').
    split; [exact Hpool|]. split; [exact Hkeys|]. split; [|exact Htimers'].
    cbn. intros w' d Hd. apply elem_of_app in Hd as [Hd|Hd]; [eauto|].
    apply list_elem_of_singleton in Hd. injection Hd as -> _.
    apply (Htimers w fileId (Some imageFile)). rewrite Ht.
    apply elem_of_app. right. apply list_elem_of_here.
  - assert (Hworker : worker ∈ workers s).
    { apply (Hposted worker data). rewrite Hp.
      apply elem_of_app. right. apply list_elem_of_here. }
    assert (Hrest : forall w d, (w, d) ∈ before ++ after -> w ∈ workers s).
    { intros w d Hd. apply (Hposted w d). rewrite Hp.
      apply elem_of_app in Hd as [Hd|Hd]; apply elem_of_app;
        [now left | right; now apply list_elem_of_further]. }
    unfold handleWorkerMessage. cbv zeta. cbn [files set_posted].
    set (s1 := set_workerStatus _ _).
    assert (Hs1 : poolInvariant s1).
    { split; [exact Hpool|]. split; [|now split].
      cbn. now apply status_insert_keys. }
    destruct (Map_get (files s) _) as [imageFile|]; [|exact Hs1].
    set (s2 := recordResult _ imageFile s1).
    assert (Hs2 : poolInvariant s2).
    { unfold s2, recordResult.
      destruct (Worker.success (Worker.processImage P data)),
        (Worker.compressedData (Worker.processImage P data)); exact Hs1. }
    assert (Hw2 : worker ∈ workers s2).
    { unfold s2, recordResult.
      destruct (Worker.success (Worker.processImage P data)),
        (Worker.compressedData (Worker.processImage P data)); exact Hworker. }
    destruct Hs2 as (Hpool2 & Hkeys2 & Hposted2 & Htimers2).
    unfold finishOrContinue. cbv zeta.
    destruct (_ =? _)%nat; [now repeat split|].
    destruct (processingQueue s2) as [|nextFileId queue]; [now repeat split|].
    split; [exact Hpool2|]. split; [cbn; now apply status_insert_keys|].
    split; [exact Hposted2|].
    cbn. intros w id f Hf. apply elem_of_app in Hf as [Hf|Hf]; [eauto|].
    apply list_elem_of_singleton in Hf. injection Hf as -> _ _. exact Hw2.
Qed.

Lemma maxWorkers_event s s' : event s s' -> maxWorkers s' = maxWorkers s.
Proof.
  intros [s1 s2 Hstep | s1 worker _]; [now apply maxWorkers_step | reflexivity].
Qed.

(** With an error event a slot can hold two jobs: worker 0 raises an
    error while it processes file "a", is marked idle, and the next
    [processNext] gives it file "c" as well. *)
Example workerError_two_jobs :
  let s := fire processNextTimer
             (set_timers [processNextTimer]
                (handleWorkerError 0 threeFilesStarted)) in
  reachableWithErrors (initial 2 Worker.jpegOptions) s /\
  assignedTo 0 s = ["a"; "c"].
Proof.
  split; [|reflexivity].
  eapply rtc_r; [exact (proj1 workerError_idle_with_job)|].
  apply event_step.
  assert (H : timers (handleWorkerError 0 threeFilesStarted)
              = [] ++ processNextTimer :: [processNextTimer])
    by (vm_compute; reflexivity).
  exact (step_timer (handleWorkerError 0 threeFilesStarted) []
           processNextTimer [processNextTimer] H).
Qed.

(** X20. The bound on the busy slots does not depend on workers
    behaving: in every state the page can reach, worker error events
    included, the pool has the size the constructor gave it and the
    number of slots marked busy is at most that size. *)
Theorem busy_slots_bounded_with_errors (n : nat)
    (formOptions : Worker.ImageProcessingOptions) (s : State) :
  reachableWithErrors (initial n formOptions) s ->
  maxWorkers s = n /\ (busyCount s <= maxWorkers s)%nat.
Proof.
  intros Hreach.
  assert (Hinv : poolInvariant s /\ maxWorkers s = n).
  { apply rtc_nsteps in Hreach as [k Hreach].
    revert s Hreach. induction k as [|k IH]; intros s Hreach.
    - inversion Hreach; subst. split; [apply poolInvariant_initial | reflexivity].
    - apply nsteps_inv_r in Hreach as (s' & Hreach & Hevent).
      destruct (IH s' Hreach) as [Hpool Hmax]. split.
      + eapply poolInvariant_event; eassumption.
      + rewrite <- Hmax. now apply maxWorkers_event. }
  destruct Hinv as [(Hpool & Hkeys & _) Hmax]. split; [exact Hmax|].
  unfold busyCount.
  etransitivity; [apply map_size_filter|].
  rewrite <- (size_dom (D := gset nat)).
  rewrite <- (size_set_seq (C := gset nat) 0 (maxWorkers s)).
  apply subseteq_size. intros w Hw.
  apply elem_of_dom in Hw. apply Hkeys in Hw. rewrite Hpool in Hw.
  apply elem_of_set_seq. apply elem_of_seq in Hw. lia.
Qed.

Lemma busy_slots_bounded_with_errors_witness :
  (busyCount (handleWorkerError 0 threeFilesStarted) <= 2)%nat.
Proof.
  exact (proj2 (busy_slots_bounded_with_errors 2 Worker.jpegOptions
                  (handleWorkerError 0 threeFilesStarted)
                  (proj1 workerError_idle_with_job))).
Defined.

(** *** Selection and the download buttons *)

Lemma filter_length_pos {A : Type} (p : A -> bool) (l : list A) :
  (0 < length (List.filter p l))%nat <-> exists x, x ∈ l /\ p x = true.
Proof.
  induction l as [|a l IH]; cbn.
  - split; [lia | intros (x & Hx & _); inversion Hx].
  - destruct (p a) eqn:Ha; cbn.
    + split; [|lia]. intros _. exists a. split; [apply list_elem_of_here | exact Ha].
    + rewrite IH. split.
      * intros (x & Hx & Hp). exists x. split; [now apply list_elem_of_further|exact Hp].
      * intros (x & Hx & Hp). apply elem_of_cons in Hx as [->|Hx]; [congruence|eauto].
Qed.

Lemma filter_length_lt {A : Type} (p q : A -> bool) (l : list A) :
  (length (List.filter (fun x => q x && p x) l) < length (List.filter p l))%nat
  <-> exists x, x ∈ l /\ p x = true /\ q x = false.
Proof.
  assert (Hle : forall l, (length (List.filter (fun x => q x && p x) l)
                           <= length (List.filter p l))%nat).
  { intros l'. induction l' as [|a l' IH]; cbn; [lia|].
    destruct (p a), (q a); cbn; lia. }
  induction l as [|a l IH]; cbn.
  - split; [lia | intros (x & Hx & _); inversion Hx].
  - specialize (Hle l). destruct (p a) eqn:Hp, (q a) eqn:Hq; cbn.
    + rewrite <- Nat.succ_lt_mono, IH. split.
      * intros (x & Hx & H). exists x. split; [now apply list_elem_of_further|exact H].
      * intros (x & Hx & Hpx & Hqx).
        apply elem_of_cons in Hx as [->|Hx]; [congruence|eauto].
    + split; [|lia]. intros _. exists a. split; [apply list_elem_of_here|auto].
    + rewrite IH. split.
      * intros (x & Hx & H). exists x. split; [now apply list_elem_of_further|exact H].
      * intros (x & Hx & Hpx & Hqx).
        apply elem_of_cons in Hx as [->|Hx]; [congruence|eauto].
    + rewrite IH. split.
      * intros (x & Hx & H). exists x. split; [now apply list_elem_of_further|exact H].
      * intros (x & Hx & Hpx & Hqx).
        apply elem_of_cons in Hx as [->|Hx]; [congruence|eauto].
Qed.

(** X16. "Download all" is displayed exactly when some file is
    processed. "Download selected" is displayed exactly when the
    selection is a proper, non-empty part of the processed files: some
    processed file is selected and some processed file is not. So it is
    never displayed without "download all", and never when every
    processed file is selected. *)
Theorem updateDownloadButtons_spec (s : State) :
  ((updateDownloadButtons s).1 = true <->
   exists f, f ∈ (files s).*2 /\ processed f = true) /\
  ((updateDownloadButtons s).2 = true <->
   (exists f, f ∈ (files s).*2 /\ processed f = true /\ selected f = true) /\
   (exists f, f ∈ (files s).*2 /\ processed f = true /\ selected f = false)).
Proof.
  unfold updateDownloadButtons. cbv zeta. cbn [fst snd]. split.
  - rewrite Nat.ltb_lt. apply filter_length_pos.
  - rewrite andb_true_iff, !Nat.ltb_lt.
    rewrite (filter_length_pos (fun f => selected f && processed f)).
    rewrite (filter_length_lt (fun f => processed f) (fun f => selected f)).
    split; intros [(f & Hf & H) Hrest]; (split; [|exact Hrest]);
      exists f; (split; [exact Hf|]).
    + apply andb_true_iff in H. tauto.
    + apply andb_true_iff. tauto.
Qed.

(** X17. Selecting or deselecting touches one flag of one file: an
    unknown id changes nothing; for a known id the file gets the new
    [selected] value and keeps every other field (id, name, original
    and compressed bytes, both sizes, both dimension pairs and the
    processed flag), the other files and the order of the table are
    unchanged, and so are the completed count and the display of
    "download all". *)
Theorem toggleSelection_spec (fileId : string) (selected' : bool) (s : State) :
  NoDup (files s).*1 ->
  (Map_get (files s) fileId = None -> toggleSelection fileId selected' s = s) /\
  (forall imageFile,
     Map_get (files s) fileId = Some imageFile ->
     exists imageFile',
       Map_get (files (toggleSelection fileId selected' s)) fileId = Some imageFile' /\
       selected imageFile' = selected' /\
       id imageFile' = id imageFile /\
       name imageFile' = name imageFile /\
       originalData imageFile' = originalData imageFile /\
       compressedData imageFile' = compressedData imageFile /\
       originalSize imageFile' = originalSize imageFile /\
       compressedSize imageFile' = compressedSize imageFile /\
       originalDimensions imageFile' = originalDimensions imageFile /\
       compressedDimensions imageFile' = compressedDimensions imageFile /\
       processed imageFile' = processed imageFile) /\
  (forall other, other <> fileId ->
     Map_get (files (toggleSelection fileId selected' s)) other
     = Map_get (files s) other) /\
  (files (toggleSelection fileId selected' s)).*1 = (files s).*1 /\
  completedCount (toggleSelection fileId selected' s) = completedCount s /\
  (updateDownloadButtons (toggleSelection fileId selected' s)).1
  = (updateDownloadButtons s).1.
Proof.
  intros Hnodup. unfold toggleSelection.
  destruct (Map_get (files s) fileId) as [imageFile|] eqn:Hfile.
  2:{ repeat split; auto. intros f [=]. }
  assert (Hcount : completedCount
                     (set_files (Map_set (files s) fileId
                        {| id := id imageFile; name := name imageFile;
                           originalData := originalData imageFile;
                           compressedData := compressedData imageFile;
                           originalSize := originalSize imageFile;
                           compressedSize := compressedSize imageFile;
                           originalDimensions := originalDimensions imageFile;
                           compressedDimensions := compressedDimensions imageFile;
                           processed := processed imageFile;
                           selected := selected' |}) s)
                   = completedCount s).
  { unfold completedCount. cbn [files set_files].
    match goal with |- context [Map_set _ _ ?f'] =>
      pose proof (count_Map_set (files s) fileId imageFile f' Hnodup Hfile) as H
    end.
    cbn [processed] in H. lia. }
  split; [discriminate|]. split; [|split; [|split; [|split]]].
  - intros f [= <-]. eexists. cbn [files set_files].
    rewrite Map_get_set_eq. split; [reflexivity|]. cbn. auto 12.
  - intros other Hne. cbn [files set_files]. apply Map_get_set_ne. congruence.
  - cbn [files set_files]. apply Map_set_keys_present. eauto.
  - exact Hcount.
  - unfold updateDownloadButtons. cbv zeta. cbn [fst].
    unfold completedCount in Hcount. now rewrite Hcount.
Qed.

Lemma toggleSelection_spec_witness :
  completedCount (toggleSelection "a" false
                    (oneFileAnswered (Worker.decodingPlatform 800 600)))
  = completedCount (oneFileAnswered (Worker.decodingPlatform 800 600)).
Proof.
  exact (proj1 (proj2 (proj2 (proj2 (proj2
           (toggleSelection_spec "a" false
              (oneFileAnswered (Worker.decodingPlatform 800 600))
              ltac:(vm_compute; repeat constructor; set_solver))))))).
Defined.

(** *** Download names *)

Lemma append_empty (s : string) : EmptyString +:+ s = s.
Proof. reflexivity. Qed.

Lemma append_String (c : Ascii.ascii) (a s : string) :
  String c a +:+ s = String c (a +:+ s).
Proof. reflexivity. Qed.

Lemma extensionChars_app_dot (a b : string) :
  extensionChars (a +:+ String dot b) = false.
Proof.
  induction a as [|c a IH].
  - rewrite append_empty. cbn [extensionChars].
    rewrite Ascii.eqb_refl. now rewrite andb_false_r.
  - rewrite append_String. cbn [extensionChars].
    rewrite IH. now rewrite andb_false_r.
Qed.

Lemma extensionAt_before_dot (c : Ascii.ascii) (a b : string) :
  extensionAt (String c a +:+ String dot b) = false.
Proof.
  rewrite append_String. unfold extensionAt.
  destruct (a +:+ String dot b) as [|c' rest] eqn:Happ; [reflexivity|].
  rewrite <- Happ, extensionChars_app_dot. apply andb_false_r.
Qed.

(** X18. The extension of a file name, a final dot followed by at
    least one character none of which is a dot or a slash, is dropped,
    whatever precedes it (further dots included), and the download name
    is the rest followed by "_compressed." and by "png" for the format
    "png", "webp" for the format "webp" and "jpg" for every other
    format. Files that differ only in their extension are therefore
    downloaded and archived under the same name. *)
Theorem downloadFilename_extension (format base extension : string) :
  extension <> EmptyString -> extensionChars extension = true ->
  getFilenameWithoutExtension (base +:+ String dot extension) = base /\
  downloadFilename format (base +:+ String dot extension)
  = base +:+ "_compressed." +:+
    (if String.eqb format "png" then "png"
     else if String.eqb format "webp" then "webp"
     else "jpg") /\
  forall extension',
    extension' <> EmptyString -> extensionChars extension' = true ->
    downloadFilename format (base +:+ String dot extension')
    = downloadFilename format (base +:+ String dot extension).
Proof.
  assert (Hstrip : forall ext,
            ext <> EmptyString -> extensionChars ext = true ->
            getFilenameWithoutExtension (base +:+ String dot ext) = base).
  { intros ext Hnonempty Hchars. induction base as [|c base IH].
    - rewrite append_empty. destruct ext as [|c' rest]; [contradiction|].
      cbn [getFilenameWithoutExtension extensionAt].
      rewrite Hchars, Ascii.eqb_refl. reflexivity.
    - pose proof (extensionAt_before_dot c base ext) as Hhere.
      rewrite append_String in Hhere |- *.
      cbn [getFilenameWithoutExtension]. rewrite Hhere. now rewrite IH. }
  intros Hnonempty Hchars.
  split; [now apply Hstrip|]. unfold downloadFilename, downloadExtension.
  rewrite (Hstrip extension Hnonempty Hchars). split; [reflexivity|].
  intros extension' Hnonempty' Hchars'. now rewrite (Hstrip extension').
Qed.

Lemma downloadFilename_extension_witness :
  downloadFilename "webp" "holiday.2024.jpeg" = "holiday.2024_compressed.webp".
Proof.
  exact (proj1 (proj2 (downloadFilename_extension "webp" "holiday.2024" "jpeg"
                         ltac:(discriminate) eq_refl))).
Defined.

(** X19. A file name is returned whole when it has no extension: when
    every dot in it is either its last character or followed, somewhere
    before the end, by another dot or by a slash. A name with no dot at
    all is one such name. *)
Theorem getFilenameWithoutExtension_none (filename : string) :
  (forall before after,
     filename = before +:+ String dot after ->
     after = EmptyString \/ extensionChars after = false) ->
  getFilenameWithoutExtension filename = filename.
Proof.
  induction filename as [|c rest IH]; intros Hnone; [reflexivity|].
  cbn [getFilenameWithoutExtension].
  assert (Hhere : extensionAt (String c rest) = false).
  { cbn [extensionAt]. destruct rest as [|c' rest']; [reflexivity|].
    destruct (Ascii.eqb_spec c dot) as [->|_]; [|reflexivity]. cbn [andb].
    destruct (Hnone EmptyString (String c' rest') eq_refl) as [H|H];
      [discriminate|exact H]. }
  rewrite Hhere. f_equal. apply IH.
  intros before after Heq. apply (Hnone (String c before) after).
  rewrite append_String. now rewrite Heq.
Qed.

Lemma getFilenameWithoutExtension_none_witness :
  getFilenameWithoutExtension "archive." = "archive.".
Proof.
  apply getFilenameWithoutExtension_none.
  intros before after Heq.
  do 8 (destruct before as [|? before];
        [rewrite append_empty in Heq; injection Heq; intros; subst; auto; discriminate
        | rewrite append_String in Heq; try discriminate; injection Heq as <- Heq]).
  destruct before; discriminate.
Defined.

End Main.
